(** * myphotos: local/remote photo inventory reconciliation

    A shallow embedding of [myphotos.go] (both program variants) and the
    properties of its reconciliation core.

    - [GoLib]      the Go standard-library functions the program calls
                   ([strings.HasSuffix], [strings.Split], [strconv.ParseInt],
                   [bufio.Scanner], [filepath.Clean], [filepath.Dir],
                   [filepath.Join], [filepath.WalkDir]).
    - [Composite]  the variant whose table [photos] is keyed by
                   [(filename, size)].
    - [RelPath]    the variant whose table [files] is keyed by [rel_path].

    A SQLite table with a primary key is a finite map from the key columns to
    the remaining columns, so the tables are [gmap]s.  [db.Exec] is modelled
    on its success path: the statements the program issues cannot fail for a
    reason that depends on the data.  A [SELECT] without [ORDER BY] yields the
    rows in an order SQL leaves open; the model enumerates the map with
    [map_to_list] and every statement about a result set is up to that order. *)

From Stdlib Require Import ZArith String Ascii List Lia.
From stdpp Require Import gmap strings list fin_maps sorting pretty.

Local Open Scope string_scope.
Local Open Scope list_scope.

(** ** Go standard library *)

Module GoLib.

(** [strings.HasSuffix]:
    [len(s) >= len(suffix) && s[len(s)-len(suffix):] == suffix]. *)
Definition HasSuffix (s suffix : string) : bool :=
  (String.length suffix <=? String.length s)%nat
  && String.eqb
       (substring (String.length s - String.length suffix)
                  (String.length suffix) s)
       suffix.

(** [strings.Split(s, sep)] for a one-byte separator: the substrings between
    the separators; a string without separator is returned whole, so the
    result is never empty. *)
Fixpoint Split (s : string) (sep : ascii) : list string :=
  match s with
  | EmptyString => [EmptyString]
  | String c rest =>
      if Ascii.eqb c sep then EmptyString :: Split rest sep
      else match Split rest sep with
           | hd :: tl => String c hd :: tl
           | [] => [String c EmptyString]
           end
  end.

Definition digit_val (c : ascii) : option Z :=
  let n := Z.of_N (N_of_ascii c) in
  if (48 <=? n)%Z && (n <=? 57)%Z then Some (n - 48)%Z else None.

Fixpoint parse_digits (acc : Z) (s : string) : option Z :=
  match s with
  | EmptyString => Some acc
  | String c rest =>
      match digit_val c with
      | Some d => parse_digits (acc * 10 + d) rest
      | None => None
      end
  end.

(** [strconv.ParseInt(s, 10, 64)]: an optional sign, then one or more decimal
    digits; [None] is a non-nil error (syntax or range).  The value is
    accumulated in [Z] and checked against the int64 range at the end, which
    fails in exactly the cases where Go reports [ErrRange]. *)
Definition ParseInt (s : string) : option Z :=
  match s with
  | EmptyString => None
  | String c rest =>
      let '(neg, body) :=
        if Ascii.eqb c "+" then (false, rest)
        else if Ascii.eqb c "-" then (true, rest)
        else (false, s) in
      match body with
      | EmptyString => None
      | _ =>
          match parse_digits 0 body with
          | None => None
          | Some un =>
              if neg then (if (un <=? 2 ^ 63)%Z then Some (- un)%Z else None)
              else (if (un <? 2 ^ 63)%Z then Some un else None)
          end
      end
  end.

Definition CR : string := String "013" EmptyString.
Definition LF : string := String "010" EmptyString.
Definition TAB : ascii := "009"%char.
Definition Separator : ascii := "/"%char.
Definition NL : ascii := "010"%char.

(** [bufio.MaxScanTokenSize], the buffer limit of a [bufio.Scanner] made by
    [bufio.NewScanner]. *)
Definition MaxScanTokenSize : N := 65536.

(** [bufio.dropCR]: the data without a trailing carriage return. *)
Definition dropCR (data : string) : string :=
  if HasSuffix data CR then substring 0 (String.length data - 1) data else data.

(** The lines [bufio.ScanLines] cuts the data into, before the buffer limit
    and [dropCR] apply: the fields between the newlines, without an empty
    field after a final newline (at the end of the data the split function
    yields no token for no data). *)
Definition rawLines (data : string) : list string :=
  let fields := Split data NL in
  if String.eqb (List.last fields EmptyString) EmptyString
  then removelast fields else fields.

(** The lines a scanner gets through: [Scan] fails with [ErrTooLong] at the
    first line that, with its newline, does not fit into the buffer, which
    is a line of [MaxScanTokenSize] bytes or more, terminated or not. *)
Fixpoint withinBuffer (lines : list string) : list string :=
  match lines with
  | [] => []
  | line :: rest =>
      if (N.of_nat (String.length line) <? MaxScanTokenSize)%N
      then line :: withinBuffer rest
      else []
  end.

(** The values of [scanner.Text()] in the loop [for scanner.Scan() { ... }]
    over a scanner made by [bufio.NewScanner] on the bytes [data]: split
    function [bufio.ScanLines], buffer limit [MaxScanTokenSize].  The loop
    ends when [Scan] returns false, at the end of the data or at a line that
    is too long; the program never looks at [scanner.Err()]. *)
Definition ScanLines (data : string) : list string :=
  dropCR <$> withinBuffer (rawLines data).

(** One round of the element loop of [filepath.Clean]; [out] holds the
    elements kept so far, the most recent first.  Empty and [.] elements are
    dropped; [..] removes the preceding element when that is not itself [..],
    is dropped at the root of a rooted path and is kept otherwise. *)
Definition clean_step (rooted : bool) (out : list string) (elem : string) : list string :=
  if String.eqb elem "" || String.eqb elem "." then out
  else if String.eqb elem ".." then
    match out with
    | top :: below => if String.eqb top ".." then elem :: out else below
    | [] => if rooted then [] else [elem]
    end
  else elem :: out.

(** [filepath.Clean] (Unix): the shortest path name equivalent to [path] by
    purely lexical processing; ["."] when the result would be empty. *)
Definition Clean (path : string) : string :=
  let rooted := match path with
                | String c _ => Ascii.eqb c Separator
                | EmptyString => false
                end in
  let out := rev (fold_left (clean_step rooted) (Split path Separator) []) in
  let res := (if rooted then "/" else "") +:+ String.concat "/" out in
  if String.eqb res "" then "." else res.

(** [path[:i+1]] for the last index [i] of a separator in [path]; empty when
    there is none. *)
Fixpoint dir_part (path : string) : string :=
  match path with
  | EmptyString => EmptyString
  | String c rest =>
      let r := dir_part rest in
      if Ascii.eqb c Separator then String c r
      else if String.eqb r "" then EmptyString else String c r
  end.

(** [filepath.Dir] (Unix): all but the last element of [path], cleaned. *)
Definition Dir (path : string) : string := Clean (dir_part path).

(** [filepath.Join] of two elements: empty elements before the first
    non-empty one are ignored, the rest is joined with the separator and
    cleaned. *)
Definition Join (a b : string) : string :=
  if negb (String.eqb a "") then Clean (a +:+ "/" +:+ b)
  else if negb (String.eqb b "") then Clean b
  else "".

Definition error := string.

(** What [filepath.WalkDir] finds below its root.  A [FileEntry] is any entry
    that is not a directory, with the outcome of its [Info()]: the size, or
    an error.  A [DirNode] carries the outcome of [os.ReadDir] on it: the
    error, if any, and the entries read, sorted by name. *)
Inductive DirEntry :=
| FileEntry (name : string) (info : error + Z)
| DirNode (name : string) (readErr : option error) (entries : list DirEntry).

Definition Name (d : DirEntry) : string :=
  match d with FileEntry n _ => n | DirNode n _ _ => n end.

Definition IsDir (d : DirEntry) : bool :=
  match d with FileEntry _ _ => false | DirNode _ _ _ => true end.

Section WalkDir.
Context {St : Type}.

(** [fs.WalkDirFunc], in state-passing style: the callback receives the
    path, the entry ([None] for Go's nil) and the error, and returns the
    new state and its own error. *)
Variable fn : string → option DirEntry → option error → St → St * option error.

(** The loop [for _, d1 := range dirs] of [walkDir], which returns at the
    first entry whose walk returns an error. *)
Definition walkEach (visit : DirEntry → St → St * option error)
    : list DirEntry → St → St * option error :=
  fix go (ds : list DirEntry) (st : St) : St * option error :=
    match ds with
    | [] => (st, None)
    | d1 :: rest =>
        match visit d1 st with
        | (st', Some err) => (st', Some err)
        | (st', None) => go rest st'
        end
    end.

(** [filepath.walkDir].  The callbacks of this program return either nil or
    an error of the file system, never [SkipDir] or [SkipAll], so those two
    branches are left out. *)
Fixpoint walkDir (path : string) (d : DirEntry) (st : St) : St * option error :=
  match d with
  | FileEntry _ _ => fn path (Some d) None st
  | DirNode _ readErr entries =>
      match fn path (Some d) None st with
      | (st1, Some err) => (st1, Some err)
      | (st1, None) =>
          match readErr with
          | Some rerr =>
              match fn path (Some d) (Some rerr) st1 with
              | (st2, Some err) => (st2, Some err)
              | (st2, None) =>
                  walkEach (λ d1, walkDir (Join path (Name d1)) d1) entries st2
              end
          | None =>
              walkEach (λ d1, walkDir (Join path (Name d1)) d1) entries st1
          end
      end
  end.

(** [filepath.WalkDir]: [root] is the outcome of [os.Lstat] on the root
    path; when that fails the callback is called once, with the error. *)
Definition WalkDir (rootPath : string) (root : error + DirEntry) (st : St) : St * option error :=
  match root with
  | inl err => fn rootPath None (Some err) st
  | inr d => walkDir rootPath d st
  end.
End WalkDir.

End GoLib.

(** ** Extension filter (identical in both variants) *)

Record Config := { Extensions : list string }.

Definition getDefaultConfig : Config :=
  {| Extensions := [".jpg"; ".JPG"; ".ARW"; ".mp4"; ".MP4"] |}.

Fixpoint isExtensionAllowed (path : string) (extensions : list string) : bool :=
  match extensions with
  | [] => false
  | ext :: rest =>
      if GoLib.HasSuffix path ext then true else isExtensionAllowed path rest
  end.

(** ** Scan state (both variants)

    What a scan of [runAdd] has changed when it ends: the table, the counter
    [count] and the text printed so far, one element per print call.  [count]
    is a Go [int]; it counts list elements, so it is a [nat] here. *)

Record Scan (D : Type) := MkScan { scan_db : D; scan_count : nat; scan_out : list string }.
Arguments MkScan {D}.
Arguments scan_db {D}.
Arguments scan_count {D}.
Arguments scan_out {D}.

(** [count++; if count%100 == 0 { fmt.Printf("\rProcessed %d <origin> files...", count) }] *)
Definition progress (origin : string) (count : nat) (out : list string) : list string :=
  if (count mod 100 =? 0)%nat
  then out ++ [GoLib.CR +:+ "Processed " +:+ pretty count +:+ " " +:+ origin +:+ " files..."]
  else out.

(** [fmt.Printf("\nComplete. Processed %d matching <origin> files.\n", count)] *)
Definition complete (origin : string) (count : nat) : string :=
  GoLib.LF +:+ "Complete. Processed " +:+ pretty count +:+ " matching " +:+ origin
  +:+ " files." +:+ GoLib.LF.

(** ** Composite identity: table [photos], PRIMARY KEY (filename, size) *)

Module Composite.

(** The columns of [photos] outside the key; [None] is SQL NULL. *)
Record Photo := { local_path : option string; remote_path : option string }.

Abbreviation DB := (gmap (string * Z) Photo).

(** [INSERT INTO photos (filename, size, local_path) VALUES (?, ?, ?)
     ON CONFLICT(filename, size) DO UPDATE SET local_path=excluded.local_path] *)
Definition upsertLocal (db : DB) (filename : string) (size : Z) (path : string) : DB :=
  match db !! (filename, size) with
  | None =>
      <[(filename, size) := {| local_path := Some path; remote_path := None |}]> db
  | Some row =>
      <[(filename, size) :=
          {| local_path := Some path; remote_path := remote_path row |}]> db
  end.

(** [INSERT INTO photos (filename, size, remote_path) VALUES (?, ?, ?)
     ON CONFLICT(filename, size) DO UPDATE SET remote_path=excluded.remote_path] *)
Definition upsertRemote (db : DB) (filename : string) (size : Z) (path : string) : DB :=
  match db !! (filename, size) with
  | None =>
      <[(filename, size) := {| local_path := None; remote_path := Some path |}]> db
  | Some row =>
      <[(filename, size) :=
          {| local_path := local_path row; remote_path := Some path |}]> db
  end.

(** The stored origin fields of an identity: [None] when the column is NULL
    or the identity has no row. *)
Definition local_of (db : DB) (k : string * Z) : option string :=
  db !! k ≫= local_path.
Definition remote_of (db : DB) (k : string * Z) : option string :=
  db !! k ≫= remote_path.

(** [x IS NOT NULL AND x != ''] *)
Definition is_set (x : option string) : bool :=
  match x with Some v => negb (String.eqb v "") | None => false end.

(** [x IS NULL OR x = ''] *)
Definition is_unset (x : option string) : bool :=
  match x with Some v => String.eqb v "" | None => true end.

(** The value [rows.Scan] stores into a [string] for a column that the
    WHERE clause has made non-NULL. *)
Definition text (x : option string) : string := default "" x.

(** [SELECT local_path FROM photos WHERE local_path IS NOT NULL AND
     local_path != '' AND (remote_path IS NULL OR remote_path = '')] *)
Definition queryMissing (db : DB) : list string :=
  omap (λ kr : string * Z * Photo,
          if is_set (local_path kr.2) && is_unset (remote_path kr.2)
          then local_path kr.2 else None)
       (map_to_list db).

(** [SELECT p1.local_path, p1.size, p2.remote_path, p2.size
     FROM photos p1 JOIN photos p2 ON p1.filename = p2.filename
     WHERE p1.local_path IS NOT NULL AND p1.local_path != ''
       AND (p1.remote_path IS NULL OR p1.remote_path = '')
       AND p2.remote_path IS NOT NULL AND p2.remote_path != ''] *)
Definition queryWrongSize (db : DB) : list (string * Z * string * Z) :=
  p1 ← map_to_list db;
  p2 ← map_to_list db;
  if bool_decide (p1.1.1 = p2.1.1)
     && is_set (local_path p1.2) && is_unset (remote_path p1.2)
     && is_set (remote_path p2.2)
  then [(text (local_path p1.2), p1.1.2, text (remote_path p2.2), p2.1.2)]
  else [].

(** The size-mismatch join as the specification words it: the first
    instance is local-only, the second has the same name, a different size,
    and is remote-only. *)
Definition specWrongSize (db : DB) : list (string * Z * string * Z) :=
  p1 ← map_to_list db;
  p2 ← map_to_list db;
  if bool_decide (p1.1.1 = p2.1.1) && bool_decide (p1.1.2 ≠ p2.1.2)
     && is_set (local_path p1.2) && is_unset (remote_path p1.2)
     && is_set (remote_path p2.2) && is_unset (local_path p2.2)
  then [(text (local_path p1.2), p1.1.2, text (remote_path p2.2), p2.1.2)]
  else [].

(** One round of the grouping loop of [runReport]:
    [dir := filepath.Dir(p); summary[dir]++]. *)
Definition bump (summary : gmap string nat) (p : string) : gmap string nat :=
  let dir := GoLib.Dir p in <[dir := S (summary !!! dir)]> summary.

(** The [summary] map once the loop has seen every row. *)
Definition summarize (paths : list string) : gmap string nat :=
  fold_left bump paths ∅.

(** [for k := range summary { keys = append(keys, k) }; sort.Strings(keys)] *)
Definition sortedKeys (summary : gmap string nat) : list string :=
  merge_sort String.le (map_to_list summary).*1.

(** The directory lines of the grouped report, as (directory, count). *)
Definition grouped (paths : list string) : list (string * nat) :=
  let summary := summarize paths in
  (λ k, (k, summary !!! k)) <$> sortedKeys summary.

(** [runReport] after flag parsing: the lines written to standard output. *)
Definition runReport (isVerbose wrongSize : bool) (db : DB) : list string :=
  if wrongSize then
    let rows := queryWrongSize db in
    ["--- Files with Name Match but Size Mismatch ---"]
    ++ (row ← rows;
        ["Local:  " +:+ row.1.1.1 +:+ " (" +:+ pretty row.1.1.2 +:+ " bytes)";
         "Remote: " +:+ row.1.2 +:+ " (" +:+ pretty row.2 +:+ " bytes)";
         ""])
    ++ ["-----------------------------------------------";
        "Total Mismatches: " +:+ pretty (length rows)]
  else
    let rows := queryMissing db in
    if isVerbose then
      ["--- Files on Local Machine but MISSING from Remote (Backup needed) ---"]
      ++ rows
      ++ ["---------------------------------------------------------------------";
          "Total Missing from Remote: " +:+ pretty (length rows)]
    else
      ["--- Summary of Missing Files (by Directory) ---"]
      ++ ((λ kn : string * nat, kn.1 +:+ ": " +:+ pretty kn.2) <$> grouped rows)
      ++ ["---------------------------------------------------------";
          "Total Missing from Remote: " +:+ pretty (length rows);
          "(Use -v or --verbose to see full file list)"].

(** *** [runAdd], remote scan *)

(** The body of the [scanner.Scan()] loop for one line of the listing. *)
Definition remoteLine (extensions : list string) (st : Scan DB) (line : string) : Scan DB :=
  match GoLib.Split line GoLib.TAB with
  | [name; sz; fullPath] =>
      match GoLib.ParseInt sz with
      | None => st
      | Some size =>
          if negb (isExtensionAllowed name extensions) then st
          else
            let count := S (scan_count st) in
            MkScan (upsertRemote (scan_db st) name size fullPath) count
                   (progress "remote" count (scan_out st))
      end
  | _ => st
  end.

(** The scan loop of the remote branch of [runAdd], with the messages
    printed around it, over a given sequence of tokens: [ssh] is the failure
    of [sshCmd.Run()], with the captured standard error, or the values
    [scanner.Text()] takes in the loop, in order.  [inl] in the result is
    [log.Fatalf].  The tokens are not the lines of the listing;
    [runAddRemoteOut] below takes them from the bytes of standard output. *)
Definition runAddRemote (cfg : Config) (remote path : string)
    (ssh : GoLib.error * string + list string) (db : DB) : GoLib.error + Scan DB :=
  let out := ["Scanning REMOTE [" +:+ remote +:+ "] at path [" +:+ path +:+ "]..." +:+ GoLib.LF] in
  match ssh with
  | inl (err, stderr) =>
      inl ("SSH command failed: " +:+ err +:+ GoLib.LF +:+ "Stderr: " +:+ stderr)
  | inr lines =>
      let st := fold_left (remoteLine (Extensions cfg)) lines (MkScan db 0 out) in
      inr (MkScan (scan_db st) (scan_count st)
                  (scan_out st ++ [complete "remote" (scan_count st)]))
  end.

(** The remote branch of [runAdd]: [ssh] is the outcome of [sshCmd.Run()],
    the error with the captured standard error, or the bytes of standard
    output, which the loop reads through a [bufio.Scanner].  [inl] in the
    result is [log.Fatalf]. *)
Definition runAddRemoteOut (cfg : Config) (remote path : string)
    (ssh : GoLib.error * string + string) (db : DB) : GoLib.error + Scan DB :=
  let out := ["Scanning REMOTE [" +:+ remote +:+ "] at path [" +:+ path +:+ "]..." +:+ GoLib.LF] in
  match ssh with
  | inl (err, stderr) =>
      inl ("SSH command failed: " +:+ err +:+ GoLib.LF +:+ "Stderr: " +:+ stderr)
  | inr stdout =>
      let st := fold_left (remoteLine (Extensions cfg)) (GoLib.ScanLines stdout)
                          (MkScan db 0 out) in
      inr (MkScan (scan_db st) (scan_count st)
                  (scan_out st ++ [complete "remote" (scan_count st)]))
  end.

(** *** [runAdd], local scan *)

Section LocalScan.
(** [filepath.Abs], with its error dropped as in [absPath, _ := ...]. *)
Variable Abs : string → string.

(** The callback given to [filepath.WalkDir]. *)
Definition localVisit (extensions : list string) (path : string)
    (d : option GoLib.DirEntry) (err : option GoLib.error) (st : Scan DB)
    : Scan DB * option GoLib.error :=
  match err with
  | Some e => (st, Some e)
  | None =>
      match d with
      | None => (st, Some "nil DirEntry")
      | Some (GoLib.DirNode _ _ _) => (st, None)
      | Some (GoLib.FileEntry name info) =>
          if negb (isExtensionAllowed path extensions) then (st, None)
          else
            match info with
            | inl e => (st, Some e)
            | inr size =>
                let count := S (scan_count st) in
                (MkScan (upsertLocal (scan_db st) name size (Abs path)) count
                        (progress "local" count (scan_out st)), None)
            end
      end
  end.

(** The local branch of [runAdd]; [inl] is [log.Fatalf], and carries the
    state the walk had reached. *)
Definition runAddLocal (cfg : Config) (path : string)
    (root : GoLib.error + GoLib.DirEntry) (db : DB)
    : (GoLib.error * Scan DB) + Scan DB :=
  let out := ["Scanning LOCAL path [" +:+ path +:+ "]..." +:+ GoLib.LF] in
  match GoLib.WalkDir (localVisit (Extensions cfg)) path root (MkScan db 0 out) with
  | (st, Some err) => inl ("Error walking local path: " +:+ err, st)
  | (st, None) =>
      inr (MkScan (scan_db st) (scan_count st)
                  (scan_out st ++ [complete "local" (scan_count st)]))
  end.
End LocalScan.

End Composite.

(** ** Relative-path identity: table [files], PRIMARY KEY rel_path *)

Module RelPath.

Record FileRow := { on_local : bool; on_remote : bool }.

Abbreviation DB := (gmap string FileRow).

(** [INSERT INTO files (rel_path, on_local, on_remote) VALUES (?, 1, 0)
     ON CONFLICT(rel_path) DO UPDATE SET on_local=1] *)
Definition upsertLocal (db : DB) (relPath : string) : DB :=
  match db !! relPath with
  | None => <[relPath := {| on_local := true; on_remote := false |}]> db
  | Some row => <[relPath := {| on_local := true; on_remote := on_remote row |}]> db
  end.

(** [INSERT INTO files (rel_path, on_local, on_remote) VALUES (?, 0, 1)
     ON CONFLICT(rel_path) DO UPDATE SET on_remote=1] *)
Definition upsertRemote (db : DB) (relPath : string) : DB :=
  match db !! relPath with
  | None => <[relPath := {| on_local := false; on_remote := true |}]> db
  | Some row => <[relPath := {| on_local := on_local row; on_remote := true |}]> db
  end.

(** The flags of an identity; an identity without a row has been seen by
    neither origin. *)
Definition seen_local (db : DB) (k : string) : bool :=
  from_option on_local false (db !! k).
Definition seen_remote (db : DB) (k : string) : bool :=
  from_option on_remote false (db !! k).

(** [SELECT rel_path FROM files WHERE on_local = 1 AND on_remote = 0] *)
Definition queryMissing (db : DB) : list string :=
  omap (λ kr : string * FileRow,
          if on_local kr.2 && negb (on_remote kr.2) then Some kr.1 else None)
       (map_to_list db).

(** [runReport]: the lines written to standard output. *)
Definition runReport (db : DB) : list string :=
  let rows := queryMissing db in
  ["--- Files on Local Machine but MISSING from Remote (Backup needed) ---"]
  ++ rows
  ++ ["---------------------------------------------------------------------";
      "Total Missing from Remote: " +:+ pretty (length rows)].

Section LocalScan.
(** [filepath.Rel], a parameter of the model. *)
Variable Rel : string → string → GoLib.error + string.

(** The callback given to [filepath.WalkDir]; [root] is [*pathPtr]. *)
Definition localVisit (extensions : list string) (root : string) (path : string)
    (d : option GoLib.DirEntry) (err : option GoLib.error) (st : Scan DB)
    : Scan DB * option GoLib.error :=
  match err with
  | Some e => (st, Some e)
  | None =>
      match d with
      | None => (st, Some "nil DirEntry")
      | Some (GoLib.DirNode _ _ _) => (st, None)
      | Some (GoLib.FileEntry _ _) =>
          if negb (isExtensionAllowed path extensions) then (st, None)
          else
            match Rel root path with
            | inl e => (st, Some e)
            | inr relPath =>
                let count := S (scan_count st) in
                (MkScan (upsertLocal (scan_db st) relPath) count
                        (progress "local" count (scan_out st)), None)
            end
      end
  end.

Definition runAddLocal (cfg : Config) (path : string)
    (root : GoLib.error + GoLib.DirEntry) (db : DB)
    : (GoLib.error * Scan DB) + Scan DB :=
  let out := ["Scanning LOCAL path [" +:+ path +:+ "]..." +:+ GoLib.LF] in
  match GoLib.WalkDir (localVisit (Extensions cfg) path) path root (MkScan db 0 out) with
  | (st, Some err) => inl ("Error walking local path: " +:+ err, st)
  | (st, None) =>
      inr (MkScan (scan_db st) (scan_count st)
                  (scan_out st ++ [complete "local" (scan_count st)]))
  end.
End LocalScan.

(** *** [runAdd], remote scan *)

Section RemoteScan.
(** [filepath.Rel] and [filepath.Base], parameters of the model. *)
Variable Rel : string → string → GoLib.error + string.
Variable Base : string → string.

(** The key a line of the listing is stored under: its path relative to the
    scan root, or its base name when [filepath.Rel] fails. *)
Definition remoteKey (root fullPath : string) : string :=
  match Rel root fullPath with
  | inl _ => Base fullPath
  | inr relPath => relPath
  end.

(** The body of the [scanner.Scan()] loop for one line of the listing;
    [root] is [*pathPtr]. *)
Definition remoteLine (extensions : list string) (root : string)
    (st : Scan DB) (fullPath : string) : Scan DB :=
  if negb (isExtensionAllowed fullPath extensions) then st
  else
    let count := S (scan_count st) in
    MkScan (upsertRemote (scan_db st) (remoteKey root fullPath)) count
           (progress "remote" count (scan_out st)).

(** The scan loop of the remote branch of [runAdd], with the messages
    printed around it, over a given sequence of tokens: [ssh] is the failure
    of [sshCmd.Run()], with the captured standard error, or the values
    [scanner.Text()] takes in the loop, in order.  [inl] in the result is
    [log.Fatalf].  The tokens are not the lines of the listing;
    [runAddRemoteOut] below takes them from the bytes of standard output. *)
Definition runAddRemote (cfg : Config) (remote path : string)
    (ssh : GoLib.error * string + list string) (db : DB) : GoLib.error + Scan DB :=
  let out := ["Scanning REMOTE [" +:+ remote +:+ "] at path [" +:+ path +:+ "]..." +:+ GoLib.LF] in
  match ssh with
  | inl (err, stderr) =>
      inl ("SSH command failed: " +:+ err +:+ GoLib.LF +:+ "Stderr: " +:+ stderr)
  | inr lines =>
      let st := fold_left (remoteLine (Extensions cfg) path) lines (MkScan db 0 out) in
      inr (MkScan (scan_db st) (scan_count st)
                  (scan_out st ++ [complete "remote" (scan_count st)]))
  end.

(** The remote branch of [runAdd]: [ssh] is the outcome of [sshCmd.Run()],
    the error with the captured standard error, or the bytes of standard
    output, which the loop reads through a [bufio.Scanner].  [inl] in the
    result is [log.Fatalf]. *)
Definition runAddRemoteOut (cfg : Config) (remote path : string)
    (ssh : GoLib.error * string + string) (db : DB) : GoLib.error + Scan DB :=
  let out := ["Scanning REMOTE [" +:+ remote +:+ "] at path [" +:+ path +:+ "]..." +:+ GoLib.LF] in
  match ssh with
  | inl (err, stderr) =>
      inl ("SSH command failed: " +:+ err +:+ GoLib.LF +:+ "Stderr: " +:+ stderr)
  | inr stdout =>
      let st := fold_left (remoteLine (Extensions cfg) path) (GoLib.ScanLines stdout)
                          (MkScan db 0 out) in
      inr (MkScan (scan_db st) (scan_count st)
                  (scan_out st ++ [complete "remote" (scan_count st)]))
  end.
End RemoteScan.

End RelPath.



(** * Vocabulary of the properties *)

(** A row of [photos] that was seen locally and not remotely, as the report
    query tests it. *)
Definition compLocalOnly (kr : string * Z * Composite.Photo) : Prop :=
  Composite.is_set (Composite.local_path kr.2)
  && Composite.is_unset (Composite.remote_path kr.2).

(** A row of [files] with [on_local = 1] and [on_remote = 0]. *)
Definition relLocalOnly (kr : string * RelPath.FileRow) : Prop :=
  RelPath.on_local kr.2 && negb (RelPath.on_remote kr.2).

(** The number of paths whose containing directory, by [filepath.Dir], is
    [dir]. *)
Definition dirCount (dir : string) (paths : list string) : nat :=
  length (filter (λ p, GoLib.Dir p = dir) paths).

(** The line [find -printf '%f\t%s\t%p\n'] prints for a file: base name,
    size and full path, separated by tabs. *)
Definition findLine (name size path : string) : string :=
  name +:+ String GoLib.TAB (size +:+ String GoLib.TAB path).

(** A line of the listing that the parse loop rejects: the number of
    tab-separated fields is not three, or the size field is not an int64. *)
Definition malformed (line : string) : Prop :=
  match GoLib.Split line GoLib.TAB with
  | [_; sz; _] => GoLib.ParseInt sz = None
  | _ => True
  end.

(** A well-formed line within the extension filter, and the candidate
    (name, size, full path) it stands for. *)
Definition denotes (extensions : list string) (line : string)
    (cand : string * Z * string) : Prop :=
  ∃ sz, GoLib.Split line GoLib.TAB = [cand.1.1; sz; cand.2]
        ∧ GoLib.ParseInt sz = Some cand.1.2
        ∧ isExtensionAllowed cand.1.1 extensions = true.

(** The merge of one remote candidate. *)
Definition mergeRemote (db : Composite.DB) (cand : string * Z * string) : Composite.DB :=
  Composite.upsertRemote db cand.1.1 cand.1.2 cand.2.

(** Whether the walk below the entry [d] at [path] meets an error: a
    directory that cannot be read, or a file on which the callback fails. *)
Fixpoint faulty (fileFails : string → GoLib.DirEntry → bool)
    (path : string) (d : GoLib.DirEntry) : bool :=
  match d with
  | GoLib.FileEntry _ _ => fileFails path d
  | GoLib.DirNode _ readErr entries =>
      bool_decide (is_Some readErr)
      || existsb (λ d1, faulty fileFails (GoLib.Join path (GoLib.Name d1)) d1) entries
  end.

(** The files on which the callback of the composite variant fails: those
    within the extension filter whose [Info()] fails. *)
Definition compFileFails (extensions : list string)
    (path : string) (d : GoLib.DirEntry) : bool :=
  match d with
  | GoLib.FileEntry _ (inl _) => isExtensionAllowed path extensions
  | _ => false
  end.

(** The files on which the callback of the relative-path variant fails:
    those within the extension filter for which [filepath.Rel] fails. *)
Definition relFileFails (Rel : string → string → GoLib.error + string)
    (extensions : list string) (root path : string) (d : GoLib.DirEntry) : bool :=
  match d with
  | GoLib.FileEntry _ _ =>
      isExtensionAllowed path extensions
      && match Rel root path with inl _ => true | inr _ => false end
  | _ => false
  end.

(** The number of occurrences of the byte [c] in [s]. *)
Fixpoint countByte (c : ascii) (s : string) : nat :=
  match s with
  | EmptyString => 0
  | String c' rest => (if Ascii.eqb c' c then 1 else 0) + countByte c rest
  end.

(** The values of a Go [int64]. *)
Definition int64 (z : Z) : Prop := (- 2 ^ 63 ≤ z < 2 ^ 63)%Z.

(** The two scan origins. *)
Inductive Origin := Local | Remote.

Global Instance Origin_eq_dec : EqDecision Origin.
Proof. solve_decision. Defined.

(** One observation under the relative-path scheme, and the merge it
    causes. *)
Definition relMerge (db : RelPath.DB) (ob : Origin * string) : RelPath.DB :=
  match ob.1 with
  | Local => RelPath.upsertLocal db ob.2
  | Remote => RelPath.upsertRemote db ob.2
  end.

(** One observation under the composite scheme: origin, identity and path,
    and the merge it causes. *)
Definition compMerge (db : Composite.DB) (ob : Origin * (string * Z) * string)
    : Composite.DB :=
  match ob.1.1 with
  | Local => Composite.upsertLocal db ob.1.2.1 ob.1.2.2 ob.2
  | Remote => Composite.upsertRemote db ob.1.2.1 ob.1.2.2 ob.2
  end.

(** The path of the last observation of the identity [k] from the origin
    [o], if there is one. *)
Definition lastPath (o : Origin) (k : string * Z)
    (obs : list (Origin * (string * Z) * string)) : option string :=
  last (omap (λ ob : Origin * (string * Z) * string,
                if decide (ob.1 = (o, k)) then Some ob.2 else None) obs).

(** The candidates a local walk below the entry [d] at [path] yields, in the
    order of the walk: the entries that are not directories, pass the
    extension filter on their path and have an [Info()]; each with its name,
    size and path. *)
Fixpoint candidates (extensions : list string) (path : string) (d : GoLib.DirEntry)
    : list (string * Z * string) :=
  match d with
  | GoLib.FileEntry name (inr size) =>
      if isExtensionAllowed path extensions then [(name, size, path)] else []
  | GoLib.FileEntry _ (inl _) => []
  | GoLib.DirNode _ _ entries =>
      flat_map (λ d1, candidates extensions (GoLib.Join path (GoLib.Name d1)) d1)
               entries
  end.

(** The merge of one local candidate (composite scheme). *)
Definition mergeLocal (Abs : string → string) (db : Composite.DB)
    (cand : string * Z * string) : Composite.DB :=
  Composite.upsertLocal db cand.1.1 cand.1.2 (Abs cand.2).

(** What [assertFileState] of the tests reads for an identity: the flags
    (onLocal, onRemote) it compares with the expected ones, a path column
    counting as set when it is neither NULL nor empty; [None] when the row
    is not found. *)
Definition compFileState (db : Composite.DB) (filename : string) (size : Z)
    : option (bool * bool) :=
  row ← db !! (filename, size);
  Some (Composite.is_set (Composite.local_path row),
        Composite.is_set (Composite.remote_path row)).

Definition relFileState (db : RelPath.DB) (relPath : string) : option (bool * bool) :=
  row ← db !! relPath;
  Some (RelPath.on_local row, RelPath.on_remote row).

(** The bytes of a listing made of the given lines, each ended by a newline,
    as [find -printf '...\n'] writes its records. *)
Definition listing (lines : list string) : string :=
  fold_right (λ line rest, line +:+ String GoLib.NL rest) EmptyString lines.

(** A line the scanner can hold: it has no newline inside and is shorter
    than the buffer limit.  The loop gets it without the carriage return at
    its end, if it has one. *)
Definition fitsBuffer (line : string) : Prop :=
  countByte GoLib.NL line = 0%nat
  ∧ (N.of_nat (String.length line) < GoLib.MaxScanTokenSize)%N.

(** A line the scanner hands to the loop as it is: it holds no newline, does
    not end in a carriage return and is shorter than the buffer limit. *)
Definition scannable (line : string) : Prop :=
  countByte GoLib.NL line = 0%nat
  ∧ GoLib.HasSuffix line GoLib.CR = false
  ∧ (N.of_nat (String.length line) < GoLib.MaxScanTokenSize)%N.

(** The listing line of a candidate (name, size, full path). *)
Definition recordLine (cand : string * Z * string) : string :=
  findLine cand.1.1 (pretty cand.1.2) cand.2.

(** The string [s] doubled [n] times; a way to write long lines. *)
Fixpoint doubled (n : nat) (s : string) : string :=
  match n with
  | O => s
  | S n' => doubled n' (s +:+ s)
  end.

(** * Properties *)

(** ** Strings *)

Section StringFacts.

Lemma length_app (a b : string) :
  String.length (a +:+ b) = (String.length a + String.length b)%nat.
Proof. induction a as [|c a IH]; simpl; [done | by rewrite IH]. Qed.

Lemma substring_whole (s : string) : substring 0 (String.length s) s = s.
Proof. induction s as [|c s IH]; simpl; [done | by rewrite IH]. Qed.

Lemma substring_skip (pre s : string) (n : nat) :
  substring (String.length pre) n (pre +:+ s) = substring 0 n s.
Proof. induction pre as [|c pre IH]; simpl; [done | apply IH]. Qed.

Lemma substring_split (s : string) (n : nat) :
  (n ≤ String.length s)%nat →
  s = substring 0 n s +:+ substring n (String.length s - n) s.
Proof.
  revert n. induction s as [|c s IH]; intros [|n] Hn; simpl in *; try done.
  - by rewrite substring_whole.
  - change (String c s
            = String c (substring 0 n s +:+ substring n (String.length s - n) s)).
    f_equal. apply IH. lia.
Qed.

Lemma HasSuffix_app (pre suffix : string) :
  GoLib.HasSuffix (pre +:+ suffix) suffix = true.
Proof.
  unfold GoLib.HasSuffix. rewrite length_app.
  replace (String.length pre + String.length suffix - String.length suffix)%nat
    with (String.length pre) by lia.
  rewrite substring_skip, substring_whole, String.eqb_refl.
  rewrite andb_true_r. apply Nat.leb_le. lia.
Qed.

Lemma HasSuffix_spec (s suffix : string) :
  GoLib.HasSuffix s suffix = true ↔ ∃ pre, s = pre +:+ suffix.
Proof.
  split.
  - unfold GoLib.HasSuffix. intros [Hle Heq]%andb_true_iff.
    apply Nat.leb_le in Hle. apply String.eqb_eq in Heq.
    set (n := (String.length s - String.length suffix)%nat) in *.
    exists (substring 0 n s).
    etrans; [apply (substring_split s n); lia|]. f_equal.
    by replace (String.length s - n)%nat with (String.length suffix) by lia.
  - intros [pre ->]. apply HasSuffix_app.
Qed.

(** A suffix of the same length as the candidate extension matches only when
    it is that extension, byte for byte. *)
Lemma HasSuffix_same_length (pre tail ext : string) :
  String.length tail = String.length ext →
  GoLib.HasSuffix (pre +:+ tail) ext = String.eqb tail ext.
Proof.
  intros Hlen. unfold GoLib.HasSuffix. rewrite length_app, <- Hlen.
  replace (String.length pre + String.length tail - String.length tail)%nat
    with (String.length pre) by lia.
  rewrite substring_skip, substring_whole.
  replace (String.length tail <=? String.length pre + String.length tail)%nat
    with true; [done|].
  symmetry. apply Nat.leb_le. lia.
Qed.

Lemma isExtensionAllowed_spec (path : string) (extensions : list string) :
  isExtensionAllowed path extensions = true
  ↔ ∃ ext pre, ext ∈ extensions ∧ path = pre +:+ ext.
Proof.
  induction extensions as [|e es IH]; simpl.
  - split; [done | intros (? & ? & []%elem_of_nil & _)].
  - destruct (GoLib.HasSuffix path e) eqn:He.
    + split; [intros _ | done].
      apply HasSuffix_spec in He as [pre ->]. exists e, pre. split; [left | done].
    + rewrite IH. split.
      * intros (ext & pre & Hin & ->). exists ext, pre. split; [by right | done].
      * intros (ext & pre & Hin & ->). apply elem_of_cons in Hin as [-> | Hin].
        -- by rewrite HasSuffix_app in He.
        -- eauto.
Qed.

End StringFacts.

(** ** The extension filter *)

(** C7: with the allow-list [.jpg; .JPG; .mp4] the filter accepts photo.jpg,
    photo.JPG and /abs/path/photo.jpg and rejects document.txt and
    folder.jpg/real_file.txt; in general a path is accepted exactly when the
    whole path string ends with one of the listed suffixes, whatever its
    final segment is. *)
Theorem C7_extension_filter :
  let exts := [".jpg"; ".JPG"; ".mp4"] in
  isExtensionAllowed "photo.jpg" exts = true
  ∧ isExtensionAllowed "photo.JPG" exts = true
  ∧ isExtensionAllowed "/abs/path/photo.jpg" exts = true
  ∧ isExtensionAllowed "document.txt" exts = false
  ∧ isExtensionAllowed "folder.jpg/real_file.txt" exts = false
  ∧ (∀ path extensions,
       isExtensionAllowed path extensions = true
       ↔ ∃ ext pre, ext ∈ extensions ∧ path = pre +:+ ext).
Proof.
  cbv zeta. repeat split; try reflexivity; apply isExtensionAllowed_spec.
Qed.

(** C9: the empty allow-list rejects every path, and matching is
    case-sensitive: with the allow-list [.jpg] alone, a path ending in .Jpg
    or .JPG is rejected while one ending in .jpg is accepted.  The default
    configuration lists .jpg and .JPG, and accepts both, but not .Jpg, which
    it does not list. *)
Theorem C9_case_sensitive_and_empty :
  (∀ path, isExtensionAllowed path [] = false)
  ∧ (∀ pre, isExtensionAllowed (pre +:+ ".Jpg") [".jpg"] = false)
  ∧ (∀ pre, isExtensionAllowed (pre +:+ ".JPG") [".jpg"] = false)
  ∧ (∀ pre, isExtensionAllowed (pre +:+ ".jpg") [".jpg"] = true)
  ∧ (∀ pre, isExtensionAllowed (pre +:+ ".jpg") (Extensions getDefaultConfig) = true
            ∧ isExtensionAllowed (pre +:+ ".JPG") (Extensions getDefaultConfig) = true
            ∧ isExtensionAllowed (pre +:+ ".Jpg") (Extensions getDefaultConfig) = false).
Proof.
  split_and!; intros; simpl; try done.
  - by rewrite (HasSuffix_same_length pre ".Jpg" ".jpg").
  - by rewrite (HasSuffix_same_length pre ".JPG" ".jpg").
  - by rewrite HasSuffix_app.
  - split_and!.
    + by rewrite HasSuffix_app.
    + rewrite (HasSuffix_same_length pre ".JPG" ".jpg") by done.
      by rewrite HasSuffix_app.
    + by rewrite !(HasSuffix_same_length pre ".Jpg").
Qed.

(** ** Merge-upsert *)

Section CompositeStore.
Import Composite.
Implicit Types (db : DB) (k : string * Z) (f p q : string) (s : Z).

Lemma comp_lookup_upsertLocal db f s p k :
  upsertLocal db f s p !! k
  = if decide ((f, s) = k)
    then Some {| local_path := Some p; remote_path := remote_of db k |}
    else db !! k.
Proof.
  unfold upsertLocal, remote_of. case_decide as Hk.
  - subst k. destruct (db !! (f, s)); by rewrite lookup_insert_eq.
  - destruct (db !! (f, s)); by rewrite lookup_insert_ne.
Qed.

Lemma comp_lookup_upsertRemote db f s q k :
  upsertRemote db f s q !! k
  = if decide ((f, s) = k)
    then Some {| local_path := local_of db k; remote_path := Some q |}
    else db !! k.
Proof.
  unfold upsertRemote, local_of. case_decide as Hk.
  - subst k. destruct (db !! (f, s)); by rewrite lookup_insert_eq.
  - destruct (db !! (f, s)); by rewrite lookup_insert_ne.
Qed.

Lemma comp_remote_of_upsertLocal db f s p k :
  remote_of (upsertLocal db f s p) k = remote_of db k.
Proof.
  unfold remote_of at 1. rewrite comp_lookup_upsertLocal.
  by case_decide.
Qed.

Lemma comp_local_of_upsertRemote db f s q k :
  local_of (upsertRemote db f s q) k = local_of db k.
Proof.
  unfold local_of at 1. rewrite comp_lookup_upsertRemote.
  by case_decide.
Qed.

Lemma comp_local_of_upsertLocal db f s p :
  local_of (upsertLocal db f s p) (f, s) = Some p.
Proof. unfold local_of. rewrite comp_lookup_upsertLocal. by case_decide. Qed.

Lemma comp_remote_of_upsertRemote db f s q :
  remote_of (upsertRemote db f s q) (f, s) = Some q.
Proof. unfold remote_of. rewrite comp_lookup_upsertRemote. by case_decide. Qed.

Lemma comp_upsertLocal_idem db f s p :
  upsertLocal (upsertLocal db f s p) f s p = upsertLocal db f s p.
Proof.
  apply map_eq. intros k. rewrite !comp_lookup_upsertLocal.
  case_decide; [|done]. by rewrite comp_remote_of_upsertLocal.
Qed.

Lemma comp_upsertRemote_idem db f s q :
  upsertRemote (upsertRemote db f s q) f s q = upsertRemote db f s q.
Proof.
  apply map_eq. intros k. rewrite !comp_lookup_upsertRemote.
  case_decide; [|done]. by rewrite comp_local_of_upsertRemote.
Qed.

Lemma comp_upsert_comm db f s p f' s' q :
  upsertLocal (upsertRemote db f' s' q) f s p
  = upsertRemote (upsertLocal db f s p) f' s' q.
Proof.
  apply map_eq. intros k.
  repeat (rewrite ?comp_lookup_upsertLocal, ?comp_lookup_upsertRemote;
          unfold local_of, remote_of).
  repeat case_decide; simplify_eq; done.
Qed.

End CompositeStore.

Section RelPathStore.
Import RelPath.
Implicit Types (db : DB) (k p : string).

Lemma rel_lookup_upsertLocal db p k :
  upsertLocal db p !! k
  = if decide (p = k)
    then Some {| on_local := true; on_remote := seen_remote db k |}
    else db !! k.
Proof.
  unfold upsertLocal, seen_remote. case_decide as Hk.
  - subst k. destruct (db !! p); by rewrite lookup_insert_eq.
  - destruct (db !! p); by rewrite lookup_insert_ne.
Qed.

Lemma rel_lookup_upsertRemote db p k :
  upsertRemote db p !! k
  = if decide (p = k)
    then Some {| on_local := seen_local db k; on_remote := true |}
    else db !! k.
Proof.
  unfold upsertRemote, seen_local. case_decide as Hk.
  - subst k. destruct (db !! p); by rewrite lookup_insert_eq.
  - destruct (db !! p); by rewrite lookup_insert_ne.
Qed.

Lemma rel_seen_remote_upsertLocal db p k :
  seen_remote (upsertLocal db p) k = seen_remote db k.
Proof.
  unfold seen_remote at 1. rewrite rel_lookup_upsertLocal. by case_decide.
Qed.

Lemma rel_seen_local_upsertRemote db p k :
  seen_local (upsertRemote db p) k = seen_local db k.
Proof.
  unfold seen_local at 1. rewrite rel_lookup_upsertRemote. by case_decide.
Qed.

Lemma rel_seen_local_upsertLocal db p : seen_local (upsertLocal db p) p = true.
Proof. unfold seen_local. rewrite rel_lookup_upsertLocal. by case_decide. Qed.

Lemma rel_seen_remote_upsertRemote db p : seen_remote (upsertRemote db p) p = true.
Proof. unfold seen_remote. rewrite rel_lookup_upsertRemote. by case_decide. Qed.

Lemma rel_upsertLocal_idem db p :
  upsertLocal (upsertLocal db p) p = upsertLocal db p.
Proof.
  apply map_eq. intros k. rewrite !rel_lookup_upsertLocal.
  case_decide; [|done]. by rewrite rel_seen_remote_upsertLocal.
Qed.

Lemma rel_upsert_comm db p q :
  upsertLocal (upsertRemote db q) p = upsertRemote (upsertLocal db p) q.
Proof.
  apply map_eq. intros k.
  repeat (rewrite ?rel_lookup_upsertLocal, ?rel_lookup_upsertRemote;
          unfold seen_local, seen_remote).
  repeat case_decide; simplify_eq; done.
Qed.

End RelPathStore.

(** C1: a merge from one origin never changes what the other origin wrote.
    For every identity, in both variants, [upsertLocal] leaves the remote
    field ([remote_path], [on_remote]) as it was and [upsertRemote] leaves the
    local field ([local_path], [on_local]) as it was; so after the two merges
    of one identity, in either order, both origins' fields hold what was
    written. *)
Theorem C1_non_destructive_merge :
  (∀ (db : Composite.DB) f s p k,
     Composite.remote_of (Composite.upsertLocal db f s p) k = Composite.remote_of db k)
  ∧ (∀ (db : Composite.DB) f s q k,
     Composite.local_of (Composite.upsertRemote db f s q) k = Composite.local_of db k)
  ∧ (∀ (db : Composite.DB) f s p q,
     let db1 := Composite.upsertRemote (Composite.upsertLocal db f s p) f s q in
     let db2 := Composite.upsertLocal (Composite.upsertRemote db f s q) f s p in
     Composite.local_of db1 (f, s) = Some p ∧ Composite.remote_of db1 (f, s) = Some q
     ∧ Composite.local_of db2 (f, s) = Some p ∧ Composite.remote_of db2 (f, s) = Some q)
  ∧ (∀ (db : RelPath.DB) p k,
     RelPath.seen_remote (RelPath.upsertLocal db p) k = RelPath.seen_remote db k)
  ∧ (∀ (db : RelPath.DB) p k,
     RelPath.seen_local (RelPath.upsertRemote db p) k = RelPath.seen_local db k)
  ∧ (∀ (db : RelPath.DB) p,
     let db1 := RelPath.upsertRemote (RelPath.upsertLocal db p) p in
     let db2 := RelPath.upsertLocal (RelPath.upsertRemote db p) p in
     RelPath.seen_local db1 p = true ∧ RelPath.seen_remote db1 p = true
     ∧ RelPath.seen_local db2 p = true ∧ RelPath.seen_remote db2 p = true).
Proof.
  split_and!; intros;
    repeat match goal with x := _ |- _ => subst x end.
  - apply comp_remote_of_upsertLocal.
  - apply comp_local_of_upsertRemote.
  - rewrite comp_local_of_upsertRemote, comp_remote_of_upsertLocal.
    by rewrite comp_local_of_upsertLocal, !comp_remote_of_upsertRemote,
      comp_local_of_upsertLocal.
  - apply rel_seen_remote_upsertLocal.
  - apply rel_seen_local_upsertRemote.
  - rewrite rel_seen_local_upsertRemote, rel_seen_remote_upsertLocal.
    by rewrite rel_seen_local_upsertLocal, !rel_seen_remote_upsertRemote,
      rel_seen_local_upsertLocal.
Qed.

(** C2: [upsertLocal] is idempotent, in both variants: a second call with the
    same arguments leaves the whole table as the first call left it, and so
    does any further number of calls.  It commutes with every [upsertRemote],
    so the table reached does not depend on how the calls are interleaved
    with remote merges. *)
Theorem C2_merge_idempotent :
  (∀ (db : Composite.DB) f s p,
     Composite.upsertLocal (Composite.upsertLocal db f s p) f s p
     = Composite.upsertLocal db f s p)
  ∧ (∀ (db : Composite.DB) f s p n,
     Nat.iter (S n) (λ d, Composite.upsertLocal d f s p) db
     = Composite.upsertLocal db f s p)
  ∧ (∀ (db : Composite.DB) f s p f' s' q,
     Composite.upsertLocal (Composite.upsertRemote db f' s' q) f s p
     = Composite.upsertRemote (Composite.upsertLocal db f s p) f' s' q)
  ∧ (∀ (db : Composite.DB) f s p f' s' q,
     Composite.upsertLocal
       (Composite.upsertRemote (Composite.upsertLocal db f s p) f' s' q) f s p
     = Composite.upsertRemote (Composite.upsertLocal db f s p) f' s' q)
  ∧ (∀ (db : RelPath.DB) p,
     RelPath.upsertLocal (RelPath.upsertLocal db p) p = RelPath.upsertLocal db p)
  ∧ (∀ (db : RelPath.DB) p n,
     Nat.iter (S n) (λ d, RelPath.upsertLocal d p) db = RelPath.upsertLocal db p)
  ∧ (∀ (db : RelPath.DB) p q,
     RelPath.upsertLocal (RelPath.upsertRemote db q) p
     = RelPath.upsertRemote (RelPath.upsertLocal db p) q)
  ∧ (∀ (db : RelPath.DB) p q,
     RelPath.upsertLocal (RelPath.upsertRemote (RelPath.upsertLocal db p) q) p
     = RelPath.upsertRemote (RelPath.upsertLocal db p) q).
Proof.
  split_and!; intros.
  - apply comp_upsertLocal_idem.
  - induction n as [|n IH]; [done|].
    change (Composite.upsertLocal
              (Nat.iter (S n) (λ d, Composite.upsertLocal d f s p) db) f s p
            = Composite.upsertLocal db f s p).
    rewrite IH. apply comp_upsertLocal_idem.
  - apply comp_upsert_comm.
  - by rewrite comp_upsert_comm, comp_upsertLocal_idem.
  - apply rel_upsertLocal_idem.
  - induction n as [|n IH]; [done|].
    change (RelPath.upsertLocal (Nat.iter (S n) (λ d, RelPath.upsertLocal d p) db) p
            = RelPath.upsertLocal db p).
    rewrite IH. apply rel_upsertLocal_idem.
  - apply rel_upsert_comm.
  - by rewrite rel_upsert_comm, rel_upsertLocal_idem.
Qed.

(** C10: the last observation from an origin wins.  When the identity
    [(f, s)] already has a row, [upsertLocal] with a new path stores that path
    as the local path and keeps the remote path of the row, and
    [upsertRemote] with a new path stores it as the remote path and keeps the
    local path of the row. *)
Theorem C10_last_observation_wins (db : Composite.DB) f s row path' :
  db !! (f, s) = Some row →
  Composite.upsertLocal db f s path' !! (f, s)
  = Some {| Composite.local_path := Some path';
            Composite.remote_path := Composite.remote_path row |}
  ∧ Composite.upsertRemote db f s path' !! (f, s)
  = Some {| Composite.local_path := Composite.local_path row;
            Composite.remote_path := Some path' |}.
Proof.
  intros Hrow.
  rewrite comp_lookup_upsertLocal, comp_lookup_upsertRemote.
  unfold Composite.remote_of, Composite.local_of. rewrite Hrow.
  by case_decide.
Qed.

Lemma C10_last_observation_wins_witness :
  let db :=
    Composite.upsertRemote
      (Composite.upsertLocal ∅ "img1.jpg" 1024 "/local/2023/vacation/img1.jpg")
      "img1.jpg" 1024 "/remote/backup/img1.jpg" in
  Composite.upsertLocal db "img1.jpg" 1024 "/moved/img1.jpg" !! ("img1.jpg", 1024%Z)
  = Some {| Composite.local_path := Some "/moved/img1.jpg";
            Composite.remote_path := Some "/remote/backup/img1.jpg" |}
  ∧ Composite.upsertRemote db "img1.jpg" 1024 "/moved/img1.jpg" !! ("img1.jpg", 1024%Z)
  = Some {| Composite.local_path := Some "/local/2023/vacation/img1.jpg";
            Composite.remote_path := Some "/moved/img1.jpg" |}.
Proof.
  intros db.
  apply (C10_last_observation_wins db "img1.jpg" 1024
           {| Composite.local_path := Some "/local/2023/vacation/img1.jpg";
              Composite.remote_path := Some "/remote/backup/img1.jpg" |}).
  vm_compute. reflexivity.
Defined.

(** ** Report queries *)

Section QueryFacts.

Lemma map_to_list_filter_perm {K A} `{Countable K}
    (P : K * A → Prop) `{∀ x, Decision (P x)} (m : gmap K A) :
  map_to_list (filter P m) ≡ₚ filter P (map_to_list m).
Proof.
  apply NoDup_Permutation.
  - apply NoDup_map_to_list.
  - apply NoDup_filter, NoDup_map_to_list.
  - intros [k v].
    rewrite elem_of_map_to_list, map_lookup_filter_Some, list_elem_of_filter,
      elem_of_map_to_list.
    tauto.
Qed.

(** An [omap] that keeps the elements satisfying a test is a filter followed
    by a map. *)
Lemma omap_filter_fmap {A B} (P : A → Prop) `{∀ x, Decision (P x)}
    (g : A → B) (f : A → option B) (l : list A) :
  (∀ x, f x = if decide (P x) then Some (g x) else None) →
  omap f l = g <$> filter P l.
Proof.
  intros Hf. induction l as [|x l IH]; [done|].
  cbn [omap list_omap]. rewrite filter_cons, Hf.
  destruct (decide (P x)); by rewrite IH.
Qed.

Lemma comp_queryMissing_perm (db : Composite.DB) :
  Composite.queryMissing db
  ≡ₚ (λ kr, Composite.text (Composite.local_path kr.2))
       <$> map_to_list (filter compLocalOnly db).
Proof.
  rewrite map_to_list_filter_perm. unfold Composite.queryMissing.
  erewrite (omap_filter_fmap compLocalOnly); [done|].
  intros [k [l r]]. unfold compLocalOnly. simpl.
  destruct (Composite.is_set l && Composite.is_unset r) eqn:E.
  - case_decide; [|done]. by destruct l.
  - by case_decide.
Qed.

Lemma rel_queryMissing_perm (db : RelPath.DB) :
  RelPath.queryMissing db ≡ₚ (map_to_list (filter relLocalOnly db)).*1.
Proof.
  rewrite map_to_list_filter_perm. unfold RelPath.queryMissing.
  erewrite (omap_filter_fmap relLocalOnly); [done|].
  intros [k [l r]]. unfold relLocalOnly. simpl.
  destruct (l && negb r) eqn:E.
  - by case_decide.
  - by case_decide.
Qed.

End QueryFacts.

Section Scenario.

Lemma is_set_Some (p : string) : p ≠ "" → Composite.is_set (Some p) = true.
Proof. intros Hp. simpl. by apply negb_true_iff, String.eqb_neq. Qed.

Lemma is_unset_Some (p : string) : p ≠ "" → Composite.is_unset (Some p) = false.
Proof. intros Hp. simpl. by apply String.eqb_neq. Qed.

(** The store of the reporting test: A merged from local only, B from remote
    only, C from both. *)
Lemma comp_scenario_filter (a b c : string * Z) (pa pb pc pc' : string) :
  a ≠ b → a ≠ c → b ≠ c → pa ≠ "" → pc' ≠ "" →
  filter compLocalOnly
    (Composite.upsertRemote
       (Composite.upsertLocal
          (Composite.upsertRemote (Composite.upsertLocal ∅ a.1 a.2 pa) b.1 b.2 pb)
          c.1 c.2 pc)
       c.1 c.2 pc')
  = {[ a := {| Composite.local_path := Some pa; Composite.remote_path := None |} ]}.
Proof.
  intros Hab Hac Hbc Hpa Hpc'. destruct a as [fa sa], b as [fb sb], c as [fc sc].
  apply map_eq. intros k. simpl.
  rewrite map_lookup_filter.
  repeat (rewrite ?comp_lookup_upsertLocal, ?comp_lookup_upsertRemote;
          unfold Composite.local_of, Composite.remote_of).
  rewrite lookup_empty.
  repeat case_decide; simplify_eq; simpl.
  - rewrite lookup_singleton_ne by done.
    case_guard as HP; [exfalso | done]. revert HP.
    unfold compLocalOnly. simpl. rewrite (proj2 (String.eqb_neq _ _) Hpc').
    by rewrite andb_false_r.
  - by rewrite lookup_singleton_ne.
  - rewrite lookup_singleton_eq.
    case_guard as HP; [done | exfalso]. apply HP.
    unfold compLocalOnly. simpl. by rewrite (proj2 (String.eqb_neq _ _) Hpa).
  - by rewrite lookup_singleton_ne.
Qed.

Lemma rel_scenario_filter (a b c : string) :
  a ≠ b → a ≠ c → b ≠ c →
  filter relLocalOnly
    (RelPath.upsertRemote
       (RelPath.upsertLocal (RelPath.upsertRemote (RelPath.upsertLocal ∅ a) b) c) c)
  = {[ a := {| RelPath.on_local := true; RelPath.on_remote := false |} ]}.
Proof.
  intros Hab Hac Hbc.
  apply map_eq. intros k.
  rewrite map_lookup_filter.
  repeat (rewrite ?rel_lookup_upsertLocal, ?rel_lookup_upsertRemote;
          unfold RelPath.seen_local, RelPath.seen_remote).
  rewrite lookup_empty.
  repeat case_decide; simplify_eq; simpl.
  - by rewrite lookup_singleton_ne.
  - by rewrite lookup_singleton_ne.
  - by rewrite lookup_singleton_eq.
  - by rewrite lookup_singleton_ne.
Qed.

End Scenario.

(** C3: the missing-from-remote query returns exactly the records seen
    locally and not remotely, one result per such record: a path is returned
    exactly when some row has it as its set local path while its remote path
    is unset (composite), or when the row of that relative path has
    [on_local = 1] and [on_remote = 0] (relative path), and the count is the
    number of such rows.  For a store holding A merged from local only, B
    from remote only and C from both, the result is exactly A, count 1. *)
Theorem C3_missing_from_remote :
  (∀ db : Composite.DB,
     Composite.queryMissing db
     ≡ₚ (λ kr, Composite.text (Composite.local_path kr.2))
          <$> map_to_list (filter compLocalOnly db))
  ∧ (∀ (db : Composite.DB) p,
     p ∈ Composite.queryMissing db
     ↔ ∃ k row, db !! k = Some row
                ∧ Composite.is_set (Composite.local_path row) = true
                ∧ Composite.is_unset (Composite.remote_path row) = true
                ∧ Composite.local_path row = Some p)
  ∧ (∀ db : Composite.DB,
     length (Composite.queryMissing db) = size (filter compLocalOnly db))
  ∧ (∀ db : RelPath.DB,
     RelPath.queryMissing db ≡ₚ (map_to_list (filter relLocalOnly db)).*1)
  ∧ (∀ (db : RelPath.DB) p,
     p ∈ RelPath.queryMissing db
     ↔ ∃ row, db !! p = Some row
              ∧ RelPath.on_local row = true ∧ RelPath.on_remote row = false)
  ∧ (∀ db : RelPath.DB,
     length (RelPath.queryMissing db) = size (filter relLocalOnly db))
  ∧ (∀ (a b c : string * Z) (pa pb pc pc' : string),
     a ≠ b → a ≠ c → b ≠ c → pa ≠ "" → pc' ≠ "" →
     let db :=
       Composite.upsertRemote
         (Composite.upsertLocal
            (Composite.upsertRemote (Composite.upsertLocal ∅ a.1 a.2 pa) b.1 b.2 pb)
            c.1 c.2 pc)
         c.1 c.2 pc' in
     Composite.queryMissing db = [pa] ∧ length (Composite.queryMissing db) = 1%nat)
  ∧ (∀ a b c : string,
     a ≠ b → a ≠ c → b ≠ c →
     let db :=
       RelPath.upsertRemote
         (RelPath.upsertLocal (RelPath.upsertRemote (RelPath.upsertLocal ∅ a) b) c) c in
     RelPath.queryMissing db = [a] ∧ length (RelPath.queryMissing db) = 1%nat).
Proof.
  split_and!.
  - apply comp_queryMissing_perm.
  - intros db p. unfold Composite.queryMissing. rewrite list_elem_of_omap. split.
    + intros ([k row] & Hin & Hsel). apply elem_of_map_to_list in Hin.
      simpl in Hsel.
      destruct (Composite.is_set (Composite.local_path row)) eqn:E1; [|done].
      destruct (Composite.is_unset (Composite.remote_path row)) eqn:E2; [|done].
      exists k, row. done.
    + intros (k & row & Hrow & E1 & E2 & Hp). exists (k, row). split.
      * by apply elem_of_map_to_list.
      * simpl. by rewrite E1, E2.
  - intros db. rewrite comp_queryMissing_perm, length_fmap.
    apply length_map_to_list.
  - apply rel_queryMissing_perm.
  - intros db p. unfold RelPath.queryMissing. rewrite list_elem_of_omap. split.
    + intros ([k row] & Hin & Hsel). apply elem_of_map_to_list in Hin.
      simpl in Hsel.
      destruct (RelPath.on_local row) eqn:E1; [|done].
      destruct (RelPath.on_remote row) eqn:E2; [done|].
      simplify_eq/=. eauto.
    + intros (row & Hrow & E1 & E2). exists (p, row). split.
      * by apply elem_of_map_to_list.
      * simpl. by rewrite E1, E2.
  - intros db. rewrite rel_queryMissing_perm, length_fmap.
    apply length_map_to_list.
  - intros a b c pa pb pc pc' Hab Hac Hbc Hpa Hpc' db.
    assert (Composite.queryMissing db = [pa]) as Hq; [|by rewrite Hq].
    apply Permutation_singleton_r.
    rewrite comp_queryMissing_perm. subst db.
    rewrite comp_scenario_filter by done.
    by rewrite map_to_list_singleton.
  - intros a b c Hab Hac Hbc db.
    assert (RelPath.queryMissing db = [a]) as Hq; [|by rewrite Hq].
    apply Permutation_singleton_r.
    rewrite rel_queryMissing_perm. subst db.
    rewrite rel_scenario_filter by done.
    by rewrite map_to_list_singleton.
Qed.

Lemma C3_missing_from_remote_witness :
  Composite.queryMissing
    (Composite.upsertRemote
       (Composite.upsertLocal
          (Composite.upsertRemote
             (Composite.upsertLocal ∅ "fileA.jpg" 100 "/local/fileA.jpg")
             "fileB.jpg" 200 "/remote/fileB.jpg")
          "fileC.jpg" 300 "/local/fileC.jpg")
       "fileC.jpg" 300 "/remote/fileC.jpg")
  = ["/local/fileA.jpg"]
  ∧ RelPath.queryMissing
      (RelPath.upsertRemote
         (RelPath.upsertLocal
            (RelPath.upsertRemote (RelPath.upsertLocal ∅ "fileA.jpg") "fileB.jpg")
            "fileC.jpg")
         "fileC.jpg")
    = ["fileA.jpg"].
Proof.
  destruct C3_missing_from_remote as (_ & _ & _ & _ & _ & _ & Hcomp & Hrel).
  split.
  - apply (Hcomp ("fileA.jpg", 100%Z) ("fileB.jpg", 200%Z) ("fileC.jpg", 300%Z)
             "/local/fileA.jpg" "/remote/fileB.jpg" "/local/fileC.jpg"
             "/remote/fileC.jpg"); done.
  - apply (Hrel "fileA.jpg" "fileB.jpg" "fileC.jpg"); done.
Defined.

Section WrongSize.
Import Composite.

Lemma bind_ext_Permutation {A B} (f f' : A → list B) (l : list A) :
  (∀ x, f x ≡ₚ f' x) → l ≫= f ≡ₚ l ≫= f'.
Proof.
  intros Hf. induction l as [|x l IH]; [done|].
  rewrite !bind_cons. by f_equiv.
Qed.

(** A self-join does not depend on the order in which the rows are
    enumerated. *)
Lemma bind_bind_Permutation {A B} (g : A → A → list B) (l l' : list A) :
  l ≡ₚ l' → (x ← l; y ← l; g x y) ≡ₚ (x ← l'; y ← l'; g x y).
Proof.
  intros Hl. etrans.
  { apply (bind_Permutation (λ x, y ← l; g x y)), Hl. }
  apply bind_ext_Permutation. intros x. by apply bind_Permutation.
Qed.

Lemma comp_mem_queryWrongSize (db : DB) (t : string * Z * string * Z) :
  t ∈ queryWrongSize db
  ↔ ∃ f s1 s2 r1 r2,
      db !! (f, s1) = Some r1 ∧ db !! (f, s2) = Some r2
      ∧ is_set (local_path r1) = true ∧ is_unset (remote_path r1) = true
      ∧ is_set (remote_path r2) = true
      ∧ t = (text (local_path r1), s1, text (remote_path r2), s2).
Proof.
  unfold queryWrongSize. rewrite list_elem_of_bind. split.
  - intros ([[f1 s1] r1] & Ht & Hin1). apply list_elem_of_bind in Ht.
    destruct Ht as ([[f2 s2] r2] & Ht & Hin2). simpl in Ht.
    apply elem_of_map_to_list in Hin1, Hin2.
    case_bool_decide as Hf; [subst f2 | by apply elem_of_nil in Ht].
    destruct (is_set (local_path r1)) eqn:E1; [|by apply elem_of_nil in Ht].
    destruct (is_unset (remote_path r1)) eqn:E2; [|by apply elem_of_nil in Ht].
    destruct (is_set (remote_path r2)) eqn:E3; [|by apply elem_of_nil in Ht].
    apply list_elem_of_singleton in Ht. exists f1, s1, s2, r1, r2. done.
  - intros (f & s1 & s2 & r1 & r2 & H1 & H2 & E1 & E2 & E3 & ->).
    exists (f, s1, r1). split; [|by apply elem_of_map_to_list].
    apply list_elem_of_bind. exists (f, s2, r2).
    split; [|by apply elem_of_map_to_list].
    simpl. rewrite bool_decide_eq_true_2 by done. rewrite E1, E2, E3.
    by apply list_elem_of_singleton.
Qed.

Lemma is_set_unset (x : option string) : is_set x = negb (is_unset x).
Proof. by destruct x. Qed.

End WrongSize.

Section WrongSizeScenario.
Import Composite.

Lemma comp_wrong_size_pair (f : string) (s1 s2 : Z) (pl pr : string) :
  s1 ≠ s2 → pl ≠ "" → pr ≠ "" →
  queryWrongSize (upsertRemote (upsertLocal ∅ f s1 pl) f s2 pr)
  = [(pl, s1, pr, s2)].
Proof.
  intros Hs Hpl Hpr. apply Permutation_singleton_r.
  unfold upsertLocal at 1. rewrite lookup_empty.
  unfold upsertRemote. rewrite lookup_insert_ne, lookup_empty by congruence.
  unfold queryWrongSize.
  rewrite (bind_bind_Permutation _ _
             [((f, s2), {| local_path := None; remote_path := Some pr |});
              ((f, s1), {| local_path := Some pl; remote_path := None |})]).
  - cbn [mbind list_bind fst snd local_path remote_path app is_set is_unset text
           default andb].
    rewrite !bool_decide_eq_true_2 by done.
    rewrite (proj2 (String.eqb_neq _ _) Hpl), (proj2 (String.eqb_neq _ _) Hpr).
    done.
  - rewrite insert_empty, map_to_list_insert.
    + by rewrite map_to_list_singleton.
    + apply lookup_singleton_ne. congruence.
Qed.

End WrongSizeScenario.

(** C4 (as stated): the claim makes the second instance of a pair
    remote-only.  With img.jpg of size 100 seen locally only and img.jpg of
    size 200 seen on both sides, the query of the code reports the pair
    (local:100, remote:200), while the join the claim describes is empty. *)
Lemma C4_counterexample :
  let db :=
    Composite.upsertRemote
      (Composite.upsertLocal
         (Composite.upsertLocal ∅ "img.jpg" 100 "/local/a/img.jpg")
         "img.jpg" 200 "/local/b/img.jpg")
      "img.jpg" 200 "/remote/img.jpg" in
  Composite.queryWrongSize db
  = [("/local/a/img.jpg", 100%Z, "/remote/img.jpg", 200%Z)]
  ∧ Composite.specWrongSize db = []
  ∧ Composite.queryWrongSize db ≠ Composite.specWrongSize db.
Proof. vm_compute. split_and!; [reflexivity | reflexivity | discriminate]. Qed.

(** C4 (amended): the mismatch query returns exactly the tuples
    (local_path, local_size, remote_path, remote_size) of the pairs of rows
    that share a filename, where the first row is local-only and the second
    has its remote path set, whether or not the second was also seen locally;
    the two sizes of such a pair always differ, and every pair of the join
    the specification describes is among them.  For a store with a local
    file of size [s1] and a remote file of the same name and a different
    size [s2], the query returns exactly the one pair (local:s1, remote:s2). *)
Theorem C4_size_mismatch :
  (∀ (db : Composite.DB) t,
     t ∈ Composite.queryWrongSize db
     ↔ ∃ f s1 s2 r1 r2,
         db !! (f, s1) = Some r1 ∧ db !! (f, s2) = Some r2 ∧ s1 ≠ s2
         ∧ Composite.is_set (Composite.local_path r1) = true
         ∧ Composite.is_unset (Composite.remote_path r1) = true
         ∧ Composite.is_set (Composite.remote_path r2) = true
         ∧ t = (Composite.text (Composite.local_path r1), s1,
                Composite.text (Composite.remote_path r2), s2))
  ∧ (∀ (db : Composite.DB) t,
     t ∈ Composite.specWrongSize db → t ∈ Composite.queryWrongSize db)
  ∧ (∀ (f : string) (s1 s2 : Z) (pl pr : string),
     s1 ≠ s2 → pl ≠ "" → pr ≠ "" →
     Composite.queryWrongSize
       (Composite.upsertRemote (Composite.upsertLocal ∅ f s1 pl) f s2 pr)
     = [(pl, s1, pr, s2)]).
Proof.
  split_and!.
  - intros db t. rewrite comp_mem_queryWrongSize. split.
    + intros (f & s1 & s2 & r1 & r2 & H1 & H2 & E1 & E2 & E3 & ->).
      exists f, s1, s2, r1, r2. split_and!; try done.
      intros ->. rewrite H1 in H2. injection H2 as ->.
      rewrite is_set_unset, E2 in E3. done.
    + intros (f & s1 & s2 & r1 & r2 & H1 & H2 & _ & E1 & E2 & E3 & ->).
      exists f, s1, s2, r1, r2. done.
  - intros db t. unfold Composite.specWrongSize. intros Ht.
    apply list_elem_of_bind in Ht as ([[f1 s1] r1] & Ht & Hin1).
    apply list_elem_of_bind in Ht as ([[f2 s2] r2] & Ht & Hin2).
    apply elem_of_map_to_list in Hin1, Hin2. simpl in Ht.
    apply comp_mem_queryWrongSize.
    case_bool_decide as Hf; [subst f2 | by apply elem_of_nil in Ht].
    case_bool_decide as Hs; [|by apply elem_of_nil in Ht].
    destruct (Composite.is_set (Composite.local_path r1)) eqn:E1;
      [|by apply elem_of_nil in Ht].
    destruct (Composite.is_unset (Composite.remote_path r1)) eqn:E2;
      [|by apply elem_of_nil in Ht].
    destruct (Composite.is_set (Composite.remote_path r2)) eqn:E3;
      [|by apply elem_of_nil in Ht].
    destruct (Composite.is_unset (Composite.local_path r2)) eqn:E4;
      [|by apply elem_of_nil in Ht].
    apply list_elem_of_singleton in Ht. exists f1, s1, s2, r1, r2. done.
  - apply comp_wrong_size_pair.
Qed.

Lemma C4_size_mismatch_witness :
  Composite.queryWrongSize
    (Composite.upsertRemote
       (Composite.upsertLocal ∅ "img.jpg" 100 "/local/img.jpg")
       "img.jpg" 200 "/remote/img.jpg")
  = [("/local/img.jpg", 100%Z, "/remote/img.jpg", 200%Z)].
Proof.
  destruct C4_size_mismatch as (_ & _ & Hpair).
  apply (Hpair "img.jpg" 100%Z 200%Z "/local/img.jpg" "/remote/img.jpg"); done.
Defined.

(** ** The grouped report *)

Section Grouped.
Import Composite.
Implicit Types (summary : gmap string nat) (paths : list string) (dir : string).

Lemma grouping_lookup paths summary dir :
  fold_left bump paths summary !! dir
  = match dirCount dir paths with
    | O => summary !! dir
    | S n => Some (summary !!! dir + S n)%nat
    end.
Proof.
  revert summary. induction paths as [|p paths IH]; intros summary; [done|].
  cbn [fold_left]. rewrite IH. unfold dirCount, bump. rewrite filter_cons.
  destruct (decide (GoLib.Dir p = dir)) as [->|Hne]; cbn [length].
  - rewrite lookup_insert_eq, lookup_total_insert_eq.
    destruct (length _); f_equal; lia.
  - by rewrite lookup_insert_ne, lookup_total_insert_ne.
Qed.

Lemma summarize_lookup paths dir :
  summarize paths !! dir
  = match dirCount dir paths with O => None | S n => Some (S n) end.
Proof.
  unfold summarize. rewrite grouping_lookup, lookup_empty.
  destruct (dirCount dir paths); [done|].
  by rewrite lookup_total_empty.
Qed.

(** The sum of the counters grows by one in every round. *)
Lemma bump_total summary p :
  sum_list (map_to_list (bump summary p)).*2
  = S (sum_list (map_to_list summary).*2).
Proof.
  unfold bump. cbv zeta. generalize (GoLib.Dir p). intros dir.
  rewrite lookup_total_alt.
  destruct (summary !! dir) as [n|] eqn:Hd; cbn [default from_option id].
  - rewrite <- insert_delete_eq.
    rewrite map_to_list_insert by apply lookup_delete_eq.
    rewrite <- (map_to_list_delete summary dir n Hd). cbn. done.
  - rewrite map_to_list_insert by done. cbn. done.
Qed.

Lemma grouping_total paths summary :
  sum_list (map_to_list (fold_left bump paths summary)).*2
  = (sum_list (map_to_list summary).*2 + length paths)%nat.
Proof.
  revert summary. induction paths as [|p paths IH]; intros summary.
  - cbn. lia.
  - cbn [fold_left length]. rewrite IH, bump_total. lia.
Qed.

Lemma grouped_perm paths : grouped paths ≡ₚ map_to_list (summarize paths).
Proof.
  unfold grouped, sortedKeys. cbv zeta.
  rewrite merge_sort_Permutation, <- list_fmap_compose.
  set (m := summarize paths).
  assert ((λ k, (k, m !!! k)) ∘ fst <$> map_to_list m = id <$> map_to_list m)
    as ->; [|by rewrite list_fmap_id].
  apply Forall_fmap_ext, Forall_forall.
  intros [k n] Hin%elem_of_map_to_list. simpl.
  by rewrite (lookup_total_correct _ _ _ Hin).
Qed.

Lemma grouped_keys paths : (grouped paths).*1 = sortedKeys (summarize paths).
Proof.
  unfold grouped. cbv zeta. rewrite <- list_fmap_compose. apply list_fmap_id.
Qed.

End Grouped.

(** C8: the default (non-verbose) report prints, between its header and
    footer, one line per containing directory of the missing-from-remote
    paths, with the number of such paths in that directory; the lines are in
    lexicographic order of the directory, every directory appears once, the
    counts add up to the total printed in the footer.  For two local-only
    records under dirX/ and one under dirY/ the lines are dirX: 2 and
    dirY: 1, in that order, and the total is 3. *)
Theorem C8_grouped_report :
  (∀ db : Composite.DB,
     Composite.runReport false false db
     = (["--- Summary of Missing Files (by Directory) ---"]
        ++ ((λ kn : string * nat, kn.1 +:+ ": " +:+ pretty kn.2)
              <$> Composite.grouped (Composite.queryMissing db))
        ++ ["---------------------------------------------------------";
            "Total Missing from Remote: "
              +:+ pretty (length (Composite.queryMissing db));
            "(Use -v or --verbose to see full file list)"])%list)
  ∧ (∀ paths, StronglySorted String.le (Composite.grouped paths).*1)
  ∧ (∀ paths, NoDup (Composite.grouped paths).*1)
  ∧ (∀ paths dir n,
       (dir, n) ∈ Composite.grouped paths
       ↔ n = dirCount dir paths ∧ (0 < n)%nat)
  ∧ (∀ paths, sum_list (Composite.grouped paths).*2 = length paths)
  ∧ (let db :=
       Composite.upsertLocal
         (Composite.upsertLocal
            (Composite.upsertLocal ∅ "a.jpg" 10 "dirX/a.jpg")
            "c.jpg" 30 "dirY/c.jpg")
         "b.jpg" 20 "dirX/b.jpg" in
     Composite.grouped (Composite.queryMissing db) = [("dirX", 2%nat); ("dirY", 1%nat)]
     ∧ length (Composite.queryMissing db) = 3%nat
     ∧ Composite.runReport false false db
       = ["--- Summary of Missing Files (by Directory) ---";
          "dirX: 2";
          "dirY: 1";
          "---------------------------------------------------------";
          "Total Missing from Remote: 3";
          "(Use -v or --verbose to see full file list)"]).
Proof.
  split_and!.
  - done.
  - intros paths. rewrite grouped_keys. apply StronglySorted_merge_sort; apply _.
  - intros paths. rewrite grouped_perm. apply NoDup_fst_map_to_list.
  - intros paths dir n.
    rewrite grouped_perm, elem_of_map_to_list, summarize_lookup.
    destruct (dirCount dir paths); split; intros H; try done.
    + by destruct H as [-> ?%Nat.lt_irrefl].
    + simplify_eq. split; [done | lia].
    + destruct H as [-> _]. done.
  - intros paths. rewrite grouped_perm. unfold Composite.summarize.
    rewrite grouping_total, map_to_list_empty. done.
  - vm_compute. done.
Qed.

(** ** The remote scan *)

Section RemoteScan.
Import Composite.
Implicit Types (st : Scan DB) (line : string) (cand : string * Z * string).

Lemma remoteLine_malformed extensions st line :
  malformed line → remoteLine extensions st line = st.
Proof.
  unfold malformed, remoteLine. intros Hbad.
  destruct (GoLib.Split line GoLib.TAB) as [|a [|b [|c [|? ?]]]]; try done.
  by rewrite Hbad.
Qed.

Lemma remoteLine_denotes extensions st line cand :
  denotes extensions line cand →
  remoteLine extensions st line
  = MkScan (mergeRemote (scan_db st) cand) (S (scan_count st))
           (progress "remote" (S (scan_count st)) (scan_out st)).
Proof.
  intros (sz & Hsplit & Hsize & Hext). unfold remoteLine.
  by rewrite Hsplit, Hsize, Hext.
Qed.

Lemma remoteLines_denote extensions lines cands st :
  Forall2 (denotes extensions) lines cands →
  scan_db (fold_left (remoteLine extensions) lines st)
  = fold_left mergeRemote cands (scan_db st)
  ∧ scan_count (fold_left (remoteLine extensions) lines st)
  = (scan_count st + length lines)%nat.
Proof.
  intros Hall. revert st.
  induction Hall as [|line cand lines cands Hd _ IH]; intros st.
  - cbn. split; [done | lia].
  - cbn [fold_left length]. rewrite (remoteLine_denotes _ _ _ _ Hd).
    destruct (IH (MkScan (mergeRemote (scan_db st) cand) (S (scan_count st))
                    (progress "remote" (S (scan_count st)) (scan_out st))))
      as [-> ->].
    cbn. split; [done | lia].
Qed.


End RemoteScan.


(** ** The local scan *)

(** Induction on a directory tree, with the property available for every
    entry of a directory. *)
Lemma DirEntry_nested_ind (P : GoLib.DirEntry → Prop) :
  (∀ name info, P (GoLib.FileEntry name info)) →
  (∀ name readErr entries, Forall P entries → P (GoLib.DirNode name readErr entries)) →
  ∀ d, P d.
Proof.
  intros Hfile Hdir. fix IH 1. intros [name info | name readErr entries].
  - apply Hfile.
  - apply Hdir. induction entries as [|d ds IHds]; constructor.
    + apply IH.
    + apply IHds.
Qed.

Section WalkFacts.
Import GoLib.
Context {St : Type}.
Variable fn : string → option DirEntry → option error → St → St * option error.
Variable fileFails : string → DirEntry → bool.

(** What the callbacks of both variants have in common. *)
Hypothesis fn_err : ∀ path d e st, fn path d (Some e) st = (st, Some e).
Hypothesis fn_dir :
  ∀ path name readErr entries st,
    fn path (Some (DirNode name readErr entries)) None st = (st, None).
Hypothesis fn_file :
  ∀ path name info st,
    (fn path (Some (FileEntry name info)) None st).2 = None
    ↔ fileFails path (FileEntry name info) = false.

Lemma walkEach_completes (visit : DirEntry → St → St * option error)
    (bad : DirEntry → bool) (ds : list DirEntry) (st : St) :
  Forall (λ d, ∀ st, (visit d st).2 = None ↔ bad d = false) ds →
  (walkEach visit ds st).2 = None ↔ existsb bad ds = false.
Proof.
  intros Hall. revert st. induction Hall as [|d ds Hd _ IH]; intros st; [done|].
  cbn [walkEach existsb]. specialize (Hd st).
  destruct (visit d st) as [st' [e|]]; simpl in *.
  - destruct (bad d); [done|]. by destruct Hd as [_ ?%(fun H => H eq_refl)].
  - rewrite (proj1 Hd eq_refl). apply IH.
Qed.

(** The walk below an entry completes exactly when nothing below it
    fails. *)
Lemma walkDir_completes (d : DirEntry) :
  ∀ path st, (walkDir fn path d st).2 = None ↔ faulty fileFails path d = false.
Proof.
  induction d as [name info | name readErr entries IH] using DirEntry_nested_ind;
    intros path st.
  - apply fn_file.
  - cbn [walkDir faulty]. rewrite fn_dir. destruct readErr as [e|].
    + rewrite fn_err. by rewrite bool_decide_eq_true_2.
    + rewrite bool_decide_eq_false_2 by (by intros [? ?]). cbn [orb].
      apply walkEach_completes. eapply Forall_impl; [exact IH|].
      intros d Hd st'. apply Hd.
Qed.

(** The loop stops at the first entry whose walk fails: the entries after
    it are not visited. *)
Lemma walkEach_cut (visit : DirEntry → St → St * option error)
    (pre post post' : list DirEntry) (d : DirEntry) (st : St) :
  (∀ st, (visit d st).2 ≠ None) →
  walkEach visit (pre ++ d :: post) st = walkEach visit (pre ++ d :: post') st.
Proof.
  intros Hd. revert st. induction pre as [|d0 pre IH]; intros st.
  - cbn [app walkEach]. specialize (Hd st).
    by destruct (visit d st) as [st' [e|]].
  - cbn [app walkEach]. destruct (visit d0 st) as [st' [e|]]; [done | apply IH].
Qed.

Lemma walkDir_cut (path name : string) (pre post post' : list DirEntry)
    (d : DirEntry) (st : St) :
  faulty fileFails (Join path (Name d)) d = true →
  walkDir fn path (DirNode name None (pre ++ d :: post)) st
  = walkDir fn path (DirNode name None (pre ++ d :: post')) st.
Proof.
  intros Hd. cbn [walkDir]. rewrite !fn_dir. apply walkEach_cut.
  intros st' Hnone. apply walkDir_completes in Hnone. congruence.
Qed.

End WalkFacts.

Section LocalScanFacts.
Import GoLib.

Lemma comp_localVisit_file (Abs : string → string) (extensions : list string)
    (path name : string) (info : error + Z) (st : Scan Composite.DB) :
  (Composite.localVisit Abs extensions path (Some (FileEntry name info)) None st).2 = None
  ↔ compFileFails extensions path (FileEntry name info) = false.
Proof.
  unfold Composite.localVisit, compFileFails.
  destruct (isExtensionAllowed path extensions), info; simpl; split; done.
Qed.

Lemma rel_localVisit_file (Rel : string → string → error + string)
    (extensions : list string) (root path name : string) (info : error + Z)
    (st : Scan RelPath.DB) :
  (RelPath.localVisit Rel extensions root path (Some (FileEntry name info)) None st).2 = None
  ↔ relFileFails Rel extensions root path (FileEntry name info) = false.
Proof.
  unfold RelPath.localVisit, relFileFails.
  destruct (isExtensionAllowed path extensions), (Rel root path); simpl; split; done.
Qed.

Lemma comp_runAddLocal_completes (Abs : string → string) (cfg : Config)
    (path : string) (root : error + DirEntry) (db : Composite.DB) :
  (∃ st, Composite.runAddLocal Abs cfg path root db = inr st)
  ↔ ∃ d, root = inr d ∧ faulty (compFileFails (Extensions cfg)) path d = false.
Proof.
  unfold Composite.runAddLocal, WalkDir. destruct root as [e|d].
  - simpl. split; [by intros [? ?] | by intros (? & ? & _)].
  - pose proof (walkDir_completes (Composite.localVisit Abs (Extensions cfg))
                  (compFileFails (Extensions cfg))
                  (λ _ _ _ _, eq_refl) (λ _ _ _ _ _, eq_refl)
                  (comp_localVisit_file Abs (Extensions cfg)) d path) as Hw.
    match goal with |- context [walkDir ?f path d ?s] =>
      specialize (Hw s); destruct (walkDir f path d s) as [st' [e|]] end;
      simpl in Hw.
    + split; [by intros [? ?]|]. intros (d' & [= <-] & Hok).
      by apply Hw in Hok.
    + split; [|by eauto]. intros _. exists d. split; [done | by apply Hw].
Qed.

Lemma rel_runAddLocal_completes (Rel : string → string → error + string)
    (cfg : Config) (path : string) (root : error + DirEntry) (db : RelPath.DB) :
  (∃ st, RelPath.runAddLocal Rel cfg path root db = inr st)
  ↔ ∃ d, root = inr d ∧ faulty (relFileFails Rel (Extensions cfg) path) path d = false.
Proof.
  unfold RelPath.runAddLocal, WalkDir. destruct root as [e|d].
  - simpl. split; [by intros [? ?] | by intros (? & ? & _)].
  - pose proof (walkDir_completes (RelPath.localVisit Rel (Extensions cfg) path)
                  (relFileFails Rel (Extensions cfg) path)
                  (λ _ _ _ _, eq_refl) (λ _ _ _ _ _, eq_refl)
                  (rel_localVisit_file Rel (Extensions cfg) path) d path) as Hw.
    match goal with |- context [walkDir ?f path d ?s] =>
      specialize (Hw s); destruct (walkDir f path d s) as [st' [e|]] end;
      simpl in Hw.
    + split; [by intros [? ?]|]. intros (d' & [= <-] & Hok).
      by apply Hw in Hok.
    + split; [|by eauto]. intros _. exists d. split; [done | by apply Hw].
Qed.

End LocalScanFacts.

(** C6 (as stated): the claim has the walk skip a failing entry and go on.
    With a root directory that holds an unreadable sub-directory [a] and then
    the file [b.jpg], the scan is fatal and [b.jpg] is never merged; had [a]
    been skipped, the scan would have completed with [b.jpg] merged. *)
Lemma C6_counterexample :
  let cfg := {| Extensions := [".jpg"] |} in
  let unreadable := GoLib.DirNode "a" (Some "open /photos/a: permission denied") [] in
  let b := GoLib.FileEntry "b.jpg" (inr 10%Z) in
  Composite.runAddLocal GoLib.Clean cfg "/photos"
    (inr (GoLib.DirNode "photos" None [unreadable; b])) ∅
  = inl ("Error walking local path: open /photos/a: permission denied",
         MkScan ∅ 0 ["Scanning LOCAL path [/photos]..." +:+ GoLib.LF])
  ∧ Composite.runAddLocal GoLib.Clean cfg "/photos"
      (inr (GoLib.DirNode "photos" None [b])) ∅
    = inr (MkScan (Composite.upsertLocal ∅ "b.jpg" 10 "/photos/b.jpg") 1
             ["Scanning LOCAL path [/photos]..." +:+ GoLib.LF;
              GoLib.LF +:+ "Complete. Processed 1 matching local files." +:+ GoLib.LF]).
Proof. vm_compute. split; reflexivity. Qed.

(** C6 (amended): the local walk does not tolerate a failing entry.  In both
    variants the scan completes exactly when the root can be examined and no
    entry below it fails, where an entry fails when it is a directory that
    cannot be read or a file within the extension filter on which the
    callback gets an error ([Info()] in the composite variant,
    [filepath.Rel] in the relative-path variant); directories themselves and
    files outside the filter are passed over.  The first failing entry makes
    the scan fatal and the entries after it are never visited: the outcome
    does not depend on them. *)
Theorem C6_local_scan_aborts_on_entry_failure :
  (∀ (Abs : string → string) (cfg : Config) (path : string)
      (root : GoLib.error + GoLib.DirEntry) (db : Composite.DB),
     (∃ st, Composite.runAddLocal Abs cfg path root db = inr st)
     ↔ ∃ d, root = inr d ∧ faulty (compFileFails (Extensions cfg)) path d = false)
  ∧ (∀ (Rel : string → string → GoLib.error + string) (cfg : Config)
        (path : string) (root : GoLib.error + GoLib.DirEntry) (db : RelPath.DB),
     (∃ st, RelPath.runAddLocal Rel cfg path root db = inr st)
     ↔ ∃ d, root = inr d
            ∧ faulty (relFileFails Rel (Extensions cfg) path) path d = false)
  ∧ (∀ (Abs : string → string) (cfg : Config) (path name : string)
        (pre : list GoLib.DirEntry) (bad : GoLib.DirEntry)
        (post post' : list GoLib.DirEntry) (db : Composite.DB),
     faulty (compFileFails (Extensions cfg))
       (GoLib.Join path (GoLib.Name bad)) bad = true →
     Composite.runAddLocal Abs cfg path
       (inr (GoLib.DirNode name None (pre ++ bad :: post))) db
     = Composite.runAddLocal Abs cfg path
         (inr (GoLib.DirNode name None (pre ++ bad :: post'))) db)
  ∧ (∀ (Rel : string → string → GoLib.error + string) (cfg : Config)
        (path name : string) (pre : list GoLib.DirEntry) (bad : GoLib.DirEntry)
        (post post' : list GoLib.DirEntry) (db : RelPath.DB),
     faulty (relFileFails Rel (Extensions cfg) path)
       (GoLib.Join path (GoLib.Name bad)) bad = true →
     RelPath.runAddLocal Rel cfg path
       (inr (GoLib.DirNode name None (pre ++ bad :: post))) db
     = RelPath.runAddLocal Rel cfg path
         (inr (GoLib.DirNode name None (pre ++ bad :: post'))) db).
Proof.
  split_and!.
  - apply comp_runAddLocal_completes.
  - apply rel_runAddLocal_completes.
  - intros Abs cfg path name pre bad post post' db Hbad.
    unfold Composite.runAddLocal, GoLib.WalkDir.
    by rewrite (walkDir_cut _ (compFileFails (Extensions cfg))
                  (λ _ _ _ _, eq_refl) (λ _ _ _ _ _, eq_refl)
                  (comp_localVisit_file Abs (Extensions cfg))
                  path name pre post post' bad _ Hbad).
  - intros Rel cfg path name pre bad post post' db Hbad.
    unfold RelPath.runAddLocal, GoLib.WalkDir.
    by rewrite (walkDir_cut _ (relFileFails Rel (Extensions cfg) path)
                  (λ _ _ _ _, eq_refl) (λ _ _ _ _ _, eq_refl)
                  (rel_localVisit_file Rel (Extensions cfg) path)
                  path name pre post post' bad _ Hbad).
Qed.

Lemma C6_local_scan_aborts_on_entry_failure_witness :
  let cfg := {| Extensions := [".jpg"] |} in
  let unreadable := GoLib.DirNode "a" (Some "open /photos/a: permission denied") [] in
  let b := GoLib.FileEntry "b.jpg" (inr 10%Z) in
  (¬ ∃ st, Composite.runAddLocal GoLib.Clean cfg "/photos"
             (inr (GoLib.DirNode "photos" None [unreadable; b])) ∅ = inr st)
  ∧ Composite.runAddLocal GoLib.Clean cfg "/photos"
      (inr (GoLib.DirNode "photos" None ([] ++ unreadable :: [b]))) ∅
    = Composite.runAddLocal GoLib.Clean cfg "/photos"
        (inr (GoLib.DirNode "photos" None ([] ++ unreadable :: []))) ∅.
Proof.
  intros cfg unreadable b.
  destruct C6_local_scan_aborts_on_entry_failure as (Hiff & _ & Hcut & _).
  split.
  - intros Hrun. apply Hiff in Hrun as (d & [= <-] & Hok).
    vm_compute in Hok. discriminate.
  - apply Hcut. vm_compute. reflexivity.
Defined.

(** * Further properties of the code *)

(** ** Merges and sequences of merges *)

(** X1: a merge never removes a row and never touches the row of another
    identity, in both variants: the identities after a merge are the old
    ones and the merged one, and the table without the merged identity is
    what it was. *)
Theorem X1_merge_frame :
  (∀ (db : Composite.DB) f s p,
     dom (Composite.upsertLocal db f s p) = {[(f, s)]} ∪ dom db
     ∧ delete (f, s) (Composite.upsertLocal db f s p) = delete (f, s) db
     ∧ dom (Composite.upsertRemote db f s p) = {[(f, s)]} ∪ dom db
     ∧ delete (f, s) (Composite.upsertRemote db f s p) = delete (f, s) db)
  ∧ (∀ (db : RelPath.DB) p,
     dom (RelPath.upsertLocal db p) = {[p]} ∪ dom db
     ∧ delete p (RelPath.upsertLocal db p) = delete p db
     ∧ dom (RelPath.upsertRemote db p) = {[p]} ∪ dom db
     ∧ delete p (RelPath.upsertRemote db p) = delete p db).
Proof.
  split; intros.
  - unfold Composite.upsertLocal, Composite.upsertRemote.
    destruct (db !! (f, s)); rewrite !dom_insert_L, !delete_insert_eq; done.
  - unfold RelPath.upsertLocal, RelPath.upsertRemote.
    destruct (db !! p); rewrite !dom_insert_L, !delete_insert_eq; done.
Qed.

Section Sequences.

Lemma relMerge_lookup (db : RelPath.DB) (ob : Origin * string) (k : string) :
  relMerge db ob !! k
  = if decide (ob.2 = k)
    then Some {| RelPath.on_local :=
                   RelPath.seen_local db k || bool_decide (ob.1 = Local);
                 RelPath.on_remote :=
                   RelPath.seen_remote db k || bool_decide (ob.1 = Remote) |}
    else db !! k.
Proof.
  destruct ob as [[] p]; unfold relMerge; simpl.
  - rewrite rel_lookup_upsertLocal. case_decide; [|done].
    by rewrite orb_true_r, orb_false_r.
  - rewrite rel_lookup_upsertRemote. case_decide; [|done].
    by rewrite orb_true_r, orb_false_r.
Qed.

Lemma relMerge_fold_lookup (obs : list (Origin * string)) (db : RelPath.DB) (k : string) :
  fold_left relMerge obs db !! k
  = if decide (k ∈ obs.*2)
    then Some {| RelPath.on_local :=
                   RelPath.seen_local db k || bool_decide ((Local, k) ∈ obs);
                 RelPath.on_remote :=
                   RelPath.seen_remote db k || bool_decide ((Remote, k) ∈ obs) |}
    else db !! k.
Proof.
  revert db. induction obs as [|[o p] obs IH]; intros db; [done|].
  cbn [fold_left]. rewrite IH. clear IH.
  unfold RelPath.seen_local, RelPath.seen_remote.
  rewrite relMerge_lookup. cbn [fst snd fmap list_fmap].
  assert (∀ o', (o', k) ∈ obs → k ∈ obs.*2) as Hsnd.
  { intros o' Hin'. by apply (list_elem_of_fmap_2 snd) in Hin'. }
  destruct (decide (p = k)) as [->|Hpk].
  - rewrite (decide_True (P := k ∈ k :: obs.*2)) by left.
    cbn [from_option RelPath.on_local RelPath.on_remote].
    case_decide as Hin; f_equal; f_equal; apply eq_bool_prop_intro;
      rewrite ?orb_True, ?bool_decide_spec, ?elem_of_cons;
      destruct o; naive_solver.
  - case_decide as Hin.
    + rewrite decide_True by by right.
      f_equal; f_equal; f_equal; apply bool_decide_ext;
        rewrite elem_of_cons; naive_solver.
    + rewrite decide_False; [done|]. rewrite elem_of_cons. naive_solver.
Qed.

Lemma compMerge_local_of (db : Composite.DB) (ob : Origin * (string * Z) * string)
    (k : string * Z) :
  Composite.local_of (compMerge db ob) k
  = if decide (ob.1 = (Local, k)) then Some ob.2 else Composite.local_of db k.
Proof.
  destruct ob as [[[] [f s]] p]; unfold compMerge; simpl.
  - unfold Composite.local_of at 1. rewrite comp_lookup_upsertLocal.
    repeat case_decide; simplify_eq; done.
  - rewrite comp_local_of_upsertRemote. repeat case_decide; simplify_eq; done.
Qed.

Lemma compMerge_remote_of (db : Composite.DB) (ob : Origin * (string * Z) * string)
    (k : string * Z) :
  Composite.remote_of (compMerge db ob) k
  = if decide (ob.1 = (Remote, k)) then Some ob.2 else Composite.remote_of db k.
Proof.
  destruct ob as [[[] [f s]] p]; unfold compMerge; simpl.
  - rewrite comp_remote_of_upsertLocal. repeat case_decide; simplify_eq; done.
  - unfold Composite.remote_of at 1. rewrite comp_lookup_upsertRemote.
    repeat case_decide; simplify_eq; done.
Qed.

Lemma lastPath_cons (o : Origin) (k : string * Z)
    (ob : Origin * (string * Z) * string) obs :
  lastPath o k (ob :: obs)
  = match lastPath o k obs with
    | Some p => Some p
    | None => if decide (ob.1 = (o, k)) then Some ob.2 else None
    end.
Proof.
  unfold lastPath. cbn [omap list_omap].
  destruct (decide (ob.1 = (o, k))); [|by destruct (last _)].
  rewrite last_cons. by destruct (last _).
Qed.

End Sequences.

(** X2: under the relative-path scheme the table reached from the empty
    table by any sequence of merges is determined by which observations
    occur in the sequence: an identity has a row exactly when it was
    observed, [on_local] is set exactly when it was observed locally and
    [on_remote] exactly when it was observed remotely.  So two sequences with
    the same observations, in any order and with any repetitions, end in the
    same table. *)
Theorem X2_relpath_merges_converge :
  (∀ (obs : list (Origin * string)) (k : string),
     fold_left relMerge obs ∅ !! k
     = if decide (k ∈ obs.*2)
       then Some {| RelPath.on_local := bool_decide ((Local, k) ∈ obs);
                    RelPath.on_remote := bool_decide ((Remote, k) ∈ obs) |}
       else None)
  ∧ (∀ obs obs' : list (Origin * string),
     (∀ ob, ob ∈ obs ↔ ob ∈ obs') →
     fold_left relMerge obs ∅ = fold_left relMerge obs' ∅).
Proof.
  assert (∀ (obs : list (Origin * string)) (k : string),
     fold_left relMerge obs ∅ !! k
     = if decide (k ∈ obs.*2)
       then Some {| RelPath.on_local := bool_decide ((Local, k) ∈ obs);
                    RelPath.on_remote := bool_decide ((Remote, k) ∈ obs) |}
       else None) as Hlookup.
  { intros obs k. rewrite relMerge_fold_lookup.
    unfold RelPath.seen_local, RelPath.seen_remote. by rewrite lookup_empty. }
  split; [exact Hlookup|].
  intros obs obs' Hsame. apply map_eq. intros k. rewrite !Hlookup.
  assert (∀ l : list (Origin * string), k ∈ l.*2 ↔ ∃ o, (o, k) ∈ l) as Hsnd.
  { intros l. rewrite list_elem_of_fmap. split.
    - intros ([o k'] & -> & Hin). by exists o.
    - intros (o & Hin). by exists (o, k). }
  rewrite !(bool_decide_ext _ _ (Hsame _)).
  destruct (decide (k ∈ obs.*2)) as [Hin|Hin].
  - rewrite decide_True; [done|]. apply Hsnd. apply Hsnd in Hin as [o Hin].
    exists o. by apply Hsame.
  - rewrite decide_False; [done|]. intros Hin'. apply Hin, Hsnd.
    apply Hsnd in Hin' as [o Hin']. exists o. by apply Hsame.
Qed.

Lemma X2_relpath_merges_converge_witness :
  fold_left relMerge [(Local, "a.jpg"); (Remote, "a.jpg"); (Local, "a.jpg")] ∅
  = fold_left relMerge [(Remote, "a.jpg"); (Local, "a.jpg")] ∅.
Proof.
  apply (proj2 X2_relpath_merges_converge).
  intros ob. rewrite !elem_of_cons, elem_of_nil. tauto.
Defined.

Lemma compMerge_fold_fields
    (obs : list (Origin * (string * Z) * string)) (db : Composite.DB)
    (k : string * Z) :
  Composite.local_of (fold_left compMerge obs db) k
  = match lastPath Local k obs with
    | Some p => Some p
    | None => Composite.local_of db k
    end
  ∧ Composite.remote_of (fold_left compMerge obs db) k
  = match lastPath Remote k obs with
    | Some p => Some p
    | None => Composite.remote_of db k
    end.
Proof.
  revert db. induction obs as [|ob obs IH]; intros db; [done|].
  cbn [fold_left]. destruct (IH (compMerge db ob)) as [-> ->].
  rewrite !lastPath_cons, compMerge_local_of, compMerge_remote_of.
  split.
  - destruct (lastPath Local k obs); [done|]. by case_decide.
  - destruct (lastPath Remote k obs); [done|]. by case_decide.
Qed.

(** The last observation of an identity is one of the observations. *)
Lemma lastPath_elem_of (o : Origin) (k : string * Z)
    (obs : list (Origin * (string * Z) * string)) (p : string) :
  lastPath o k obs = Some p → (o, k, p) ∈ obs.
Proof.
  induction obs as [|ob obs IH]; [done|]. rewrite lastPath_cons.
  destruct (lastPath o k obs) as [p'|].
  - intros [= ->]. right. by apply IH.
  - case_decide as Hob; [|done]. intros [= Hp].
    destruct ob as [ok p']. simpl in *. subst. left.
Qed.

(** X3: under the composite scheme, after any sequence of merges the local
    path of an identity is the path of the last local observation of that
    identity in the sequence, and what it was before when there is none; the
    same holds for the remote path and the remote observations. *)
Theorem X3_composite_last_observation
    (obs : list (Origin * (string * Z) * string)) (db : Composite.DB)
    (k : string * Z) :
  Composite.local_of (fold_left compMerge obs db) k
  = match lastPath Local k obs with
    | Some p => Some p
    | None => Composite.local_of db k
    end
  ∧ Composite.remote_of (fold_left compMerge obs db) k
  = match lastPath Remote k obs with
    | Some p => Some p
    | None => Composite.remote_of db k
    end.
Proof. apply compMerge_fold_fields. Qed.

(** ** Reports *)

Section ReportFacts.
Import Composite.

Lemma comp_mem_queryMissing (db : DB) (p : string) :
  p ∈ queryMissing db
  ↔ ∃ k row, db !! k = Some row
             ∧ is_set (local_path row) = true
             ∧ is_unset (remote_path row) = true
             ∧ local_path row = Some p.
Proof.
  unfold queryMissing. rewrite list_elem_of_omap. split.
  - intros ([k row] & Hin & Hsel). apply elem_of_map_to_list in Hin.
    simpl in Hsel.
    destruct (is_set (local_path row)) eqn:E1; [|done].
    destruct (is_unset (remote_path row)) eqn:E2; [|done].
    by exists k, row.
  - intros (k & row & Hrow & E1 & E2 & Hp). exists (k, row). split.
    + by apply elem_of_map_to_list.
    + simpl. by rewrite E1, E2.
Qed.

Lemma is_set_text (x : option string) : is_set x = true → x = Some (text x).
Proof. by destruct x. Qed.

End ReportFacts.

(** X4: every pair of the size-mismatch report concerns a file of the
    missing-from-remote report: the local path of a mismatch is always among
    the paths the missing query returns.  When nothing is missing, there is
    no mismatch. *)
Theorem X4_mismatch_is_missing :
  (∀ (db : Composite.DB) (lPath rPath : string) (lSize rSize : Z),
     (lPath, lSize, rPath, rSize) ∈ Composite.queryWrongSize db →
     lPath ∈ Composite.queryMissing db)
  ∧ (∀ db : Composite.DB,
     Composite.queryMissing db = [] → Composite.queryWrongSize db = []).
Proof.
  assert (∀ (db : Composite.DB) (lPath rPath : string) (lSize rSize : Z),
     (lPath, lSize, rPath, rSize) ∈ Composite.queryWrongSize db →
     lPath ∈ Composite.queryMissing db) as Hsub.
  { intros db lPath rPath lSize rSize Hin.
    apply comp_mem_queryWrongSize in Hin
      as (f & s1 & s2 & r1 & r2 & H1 & _ & E1 & E2 & _ & Ht).
    simplify_eq. apply comp_mem_queryMissing. exists (f, s1), r1.
    split_and!; try done. by apply is_set_text. }
  split; [exact Hsub|].
  intros db Hnone.
  destruct (Composite.queryWrongSize db) as [|[[[lPath lSize] rPath] rSize] rest] eqn:Hq;
    [done|].
  exfalso. apply (elem_of_nil lPath). rewrite <- Hnone.
  apply (Hsub db lPath rPath lSize rSize). rewrite Hq. left.
Qed.

Lemma X4_mismatch_is_missing_witness :
  "/local/img.jpg"
  ∈ Composite.queryMissing
      (Composite.upsertRemote
         (Composite.upsertLocal ∅ "img.jpg" 100 "/local/img.jpg")
         "img.jpg" 200 "/remote/img.jpg").
Proof.
  apply (proj1 X4_mismatch_is_missing _ "/local/img.jpg" "/remote/img.jpg" 100%Z 200%Z).
  vm_compute. left.
Defined.

(** X5: a remote observation of the same name with a different size does
    not clear a missing file.  When the identity [(f, s)] is local-only, then
    after a remote merge of [(f, s')] with another size its local path is
    still reported as missing from remote, and it is reported as a size
    mismatch against the new remote path. *)
Theorem X5_other_size_does_not_clear (db : Composite.DB)
    (f : string) (s s' : Z) (p q : string) :
  s ≠ s' → p ≠ "" → q ≠ "" →
  Composite.local_of db (f, s) = Some p →
  Composite.is_unset (Composite.remote_of db (f, s)) = true →
  let db' := Composite.upsertRemote db f s' q in
  p ∈ Composite.queryMissing db'
  ∧ (p, s, q, s') ∈ Composite.queryWrongSize db'.
Proof.
  intros Hs Hp Hq Hlocal Hremote db'.
  unfold Composite.local_of, Composite.remote_of in *.
  destruct (db !! (f, s)) as [row|] eqn:Hrow; [|done]. simpl in *.
  assert (db' !! (f, s) = Some row) as Hrow'.
  { unfold db'. rewrite comp_lookup_upsertRemote.
    rewrite decide_False by congruence. done. }
  assert (db' !! (f, s')
          = Some {| Composite.local_path := Composite.local_of db (f, s');
                    Composite.remote_path := Some q |}) as Hnew.
  { unfold db'. rewrite comp_lookup_upsertRemote. by rewrite decide_True. }
  split.
  - apply comp_mem_queryMissing. exists (f, s), row.
    split_and!; try done. rewrite Hlocal. by apply is_set_Some.
  - apply comp_mem_queryWrongSize. eexists f, s, s', row, _.
    split_and!; [exact Hrow' | exact Hnew | | done | | ].
    + rewrite Hlocal. by apply is_set_Some.
    + by apply is_set_Some.
    + by rewrite Hlocal.
Qed.

Lemma X5_other_size_does_not_clear_witness :
  let db' :=
    Composite.upsertRemote
      (Composite.upsertLocal ∅ "img.jpg" 100 "/local/img.jpg")
      "img.jpg" 200 "/remote/img.jpg" in
  "/local/img.jpg" ∈ Composite.queryMissing db'
  ∧ ("/local/img.jpg", 100%Z, "/remote/img.jpg", 200%Z)
    ∈ Composite.queryWrongSize db'.
Proof.
  apply (X5_other_size_does_not_clear
           (Composite.upsertLocal ∅ "img.jpg" 100 "/local/img.jpg")
           "img.jpg" 100 200 "/local/img.jpg" "/remote/img.jpg");
    [done | done | done | vm_compute; reflexivity | vm_compute; reflexivity].
Defined.

(** X6: under the relative-path scheme the missing-from-remote report lists
    no path twice. *)
Theorem X6_relpath_missing_no_duplicates (db : RelPath.DB) :
  NoDup (RelPath.queryMissing db).
Proof.
  rewrite rel_queryMissing_perm. apply NoDup_fst_map_to_list.
Qed.

(** ** Scans *)

Section ParseFacts.
Import GoLib.

Lemma digit_val_range (c : ascii) (d : Z) :
  digit_val c = Some d → (0 ≤ d ≤ 9)%Z ∧ d = (Z.of_N (N_of_ascii c) - 48)%Z.
Proof.
  unfold digit_val.
  destruct ((48 <=? Z.of_N (N_of_ascii c))%Z && (Z.of_N (N_of_ascii c) <=? 57)%Z)
    eqn:Hd; [|done].
  intros [= <-]. apply andb_true_iff in Hd as [?%Z.leb_le ?%Z.leb_le]. lia.
Qed.

Lemma parse_digits_nonneg (s : string) (acc z : Z) :
  (0 ≤ acc)%Z → parse_digits acc s = Some z → (0 ≤ z)%Z.
Proof.
  revert acc. induction s as [|c s IH]; intros acc Hacc; simpl.
  - by intros [= <-].
  - destruct (digit_val c) as [d|] eqn:Hd; [|done].
    apply digit_val_range in Hd as [? _]. apply IH. lia.
Qed.

Lemma ParseInt_int64 (s : string) (z : Z) : ParseInt s = Some z → int64 z.
Proof.
  unfold ParseInt, int64. destruct s as [|c rest]; [done|].
  destruct (Ascii.eqb c "+"); [|destruct (Ascii.eqb c "-")].
  - destruct rest as [|c' rest']; [done|].
    destruct (parse_digits 0 (String c' rest')) as [un|] eqn:Hp; [|done].
    apply parse_digits_nonneg in Hp; [|done].
    case_match eqn:Hlt; [|done]. intros [= <-]. apply Z.ltb_lt in Hlt. lia.
  - destruct rest as [|c' rest']; [done|].
    destruct (parse_digits 0 (String c' rest')) as [un|] eqn:Hp; [|done].
    apply parse_digits_nonneg in Hp; [|done].
    case_match eqn:Hle; [|done]. intros [= <-]. apply Z.leb_le in Hle. lia.
  - destruct (parse_digits 0 (String c rest)) as [un|] eqn:Hp; [|done].
    apply parse_digits_nonneg in Hp; [|done].
    case_match eqn:Hlt; [|done]. intros [= <-]. apply Z.ltb_lt in Hlt. lia.
Qed.

End ParseFacts.

Section RemoteScanFacts.
Import Composite.

(** A line either leaves the scan as it is or causes one remote merge of an
    identity that passes the filter. *)
Lemma remoteLine_step (extensions : list string) (st : Scan DB) (line : string) :
  remoteLine extensions st line = st
  ∨ ∃ name sz size fullPath,
      GoLib.Split line GoLib.TAB = [name; sz; fullPath]
      ∧ GoLib.ParseInt sz = Some size
      ∧ isExtensionAllowed name extensions = true
      ∧ remoteLine extensions st line
        = MkScan (upsertRemote (scan_db st) name size fullPath)
                 (S (scan_count st))
                 (progress "remote" (S (scan_count st)) (scan_out st)).
Proof.
  unfold remoteLine.
  destruct (GoLib.Split line GoLib.TAB) as [|name [|sz [|fullPath [|? ?]]]];
    try by left.
  destruct (GoLib.ParseInt sz) as [size|] eqn:Hsz; [|by left].
  destruct (isExtensionAllowed name extensions) eqn:Hext; [|by left].
  right. by exists name, sz, size, fullPath.
Qed.

Lemma upsertRemote_size (db : DB) (f : string) (s : Z) (q : string) :
  (size db ≤ size (upsertRemote db f s q) ≤ S (size db))%nat.
Proof.
  unfold upsertRemote. destruct (db !! (f, s)) eqn:Hk.
  - rewrite map_size_insert_Some by done. lia.
  - rewrite map_size_insert_None by done. lia.
Qed.

Lemma remoteLines_invariant (extensions : list string) (lines : list string)
    (st0 : Scan DB) :
  let st := fold_left (remoteLine extensions) lines st0 in
  (∀ k, local_of (scan_db st) k = local_of (scan_db st0) k)
  ∧ dom (scan_db st0) ⊆ dom (scan_db st)
  ∧ (scan_count st0 ≤ scan_count st ≤ scan_count st0 + length lines)%nat
  ∧ (size (scan_db st) + scan_count st0 ≤ size (scan_db st0) + scan_count st)%nat
  ∧ (∀ k, k ∈ dom (scan_db st) →
          k ∈ dom (scan_db st0)
          ∨ (isExtensionAllowed k.1 extensions = true ∧ int64 k.2)).
Proof.
  revert st0. induction lines as [|line lines IH]; intros st0.
  - cbn. split_and!; try done; try lia. by left.
  - cbn [fold_left length]. specialize (IH (remoteLine extensions st0 line)).
    cbv zeta in IH. destruct IH as (Hl & Hdom & Hcount & Hsize & Hnew).
    destruct (remoteLine_step extensions st0 line)
      as [Heq | (name & sz & size & fullPath & _ & Hsz & Hext & Heq)];
      rewrite Heq in *; cbv zeta.
    + split_and!; try done; lia.
    + cbn [scan_db scan_count] in *.
      pose proof (upsertRemote_size (scan_db st0) name size fullPath) as Hup.
      split_and!.
      * intros k. by rewrite Hl, comp_local_of_upsertRemote.
      * etrans; [|exact Hdom].
        unfold upsertRemote. destruct (scan_db st0 !! (name, size));
          rewrite dom_insert_L; set_solver.
      * lia.
      * lia.
      * lia.
      * intros k Hk. destruct (Hnew k Hk) as [Hold | Hin]; [|by right].
        revert Hold. unfold upsertRemote.
        destruct (scan_db st0 !! (name, size)); rewrite dom_insert_L;
          intros [->%elem_of_singleton | ?]%elem_of_union; try by left.
        all: right; split; [done | by eapply ParseInt_int64].
Qed.

End RemoteScanFacts.

(** X7: a remote scan (composite scheme) never changes what local scans
    recorded and never removes a row: after the scan of any listing the local
    path of every identity is what it was and every identity is still there.
    The number it reports is at most the number of lines, and the table has
    grown by at most that number. *)
Theorem X7_remote_scan_frame (cfg : Config) (remote path : string)
    (lines : list string) (db : Composite.DB) :
  ∃ st,
    Composite.runAddRemote cfg remote path (inr lines) db = inr st
    ∧ (∀ k, Composite.local_of (scan_db st) k = Composite.local_of db k)
    ∧ dom db ⊆ dom (scan_db st)
    ∧ (scan_count st ≤ length lines)%nat
    ∧ (size (scan_db st) ≤ size db + scan_count st)%nat.
Proof.
  unfold Composite.runAddRemote. eexists. split; [reflexivity|].
  cbn [scan_db scan_count].
  match goal with |- context [fold_left _ lines ?st0] =>
    destruct (remoteLines_invariant (Extensions cfg) lines st0)
      as (Hl & Hdom & Hcount & Hsize & _) end.
  cbn [scan_db scan_count] in *. split_and!; try done; lia.
Qed.

(** X8: every identity a remote scan (composite scheme) adds to the table
    has a name that passes the extension filter and a size that is an
    int64. *)
Theorem X8_remote_scan_adds_in_scope (cfg : Config) (remote path : string)
    (lines : list string) (db : Composite.DB) :
  ∃ st,
    Composite.runAddRemote cfg remote path (inr lines) db = inr st
    ∧ ∀ k, k ∈ dom (scan_db st) →
           k ∈ dom db
           ∨ (isExtensionAllowed k.1 (Extensions cfg) = true ∧ int64 k.2).
Proof.
  unfold Composite.runAddRemote. eexists. split; [reflexivity|].
  cbn [scan_db scan_count].
  match goal with |- context [fold_left _ lines ?st0] =>
    destruct (remoteLines_invariant (Extensions cfg) lines st0)
      as (_ & _ & _ & _ & Hnew) end.
  exact Hnew.
Qed.

Section WalkInvariant.
Import GoLib.
Context {St : Type}.
Variable fn : string → option DirEntry → option error → St → St * option error.
Variable Inv : St → Prop.

(** Whatever the callback keeps, the walk keeps. *)
Hypothesis fn_keeps : ∀ path d e st, Inv st → Inv (fn path d e st).1.

Lemma walkEach_keeps (visit : DirEntry → St → St * option error)
    (ds : list DirEntry) (st : St) :
  Forall (λ d, ∀ st, Inv st → Inv (visit d st).1) ds →
  Inv st → Inv (walkEach visit ds st).1.
Proof.
  intros Hall. revert st. induction Hall as [|d ds Hd _ IH]; intros st Hst; [done|].
  cbn [walkEach]. specialize (Hd st Hst).
  destruct (visit d st) as [st' [e|]]; [done|]. by apply IH.
Qed.

Lemma walkDir_keeps (d : DirEntry) :
  ∀ path st, Inv st → Inv (walkDir fn path d st).1.
Proof.
  induction d as [name info | name readErr entries IH] using DirEntry_nested_ind;
    intros path st Hst.
  - by apply fn_keeps.
  - cbn [walkDir].
    pose proof (fn_keeps path (Some (DirNode name readErr entries)) None st Hst) as H1.
    destruct (fn path (Some (DirNode name readErr entries)) None st) as [st1 [e|]];
      [done|]. simpl in H1.
    assert (∀ st', Inv st' →
              Inv (walkEach (λ d1, walkDir fn (Join path (Name d1)) d1) entries st').1)
      as Hloop.
    { intros st' Hst'. apply walkEach_keeps; [|done].
      eapply Forall_impl; [exact IH|]. intros d Hd st''. apply Hd. }
    destruct readErr as [rerr|]; [|by apply Hloop].
    pose proof (fn_keeps path (Some (DirNode name (Some rerr) entries)) (Some rerr)
                  st1 H1) as H2.
    destruct (fn path (Some (DirNode name (Some rerr) entries)) (Some rerr) st1)
      as [st2 [e|]]; [done|]. by apply Hloop.
Qed.

Lemma WalkDir_keeps (rootPath : string) (root : error + DirEntry) (st : St) :
  Inv st → Inv (WalkDir fn rootPath root st).1.
Proof.
  intros Hst. destruct root as [e|d]; simpl.
  - by apply fn_keeps.
  - by apply walkDir_keeps.
Qed.

End WalkInvariant.

Section LocalScanFrame.
Import GoLib.

Lemma comp_localVisit_keeps (Abs : string → string) (extensions : list string)
    (db : Composite.DB) (path : string) (d : option DirEntry) (e : option error)
    (st : Scan Composite.DB) :
  (∀ k, Composite.remote_of (scan_db st) k = Composite.remote_of db k)
  ∧ dom db ⊆ dom (scan_db st) →
  (∀ k, Composite.remote_of
          (scan_db (Composite.localVisit Abs extensions path d e st).1) k
        = Composite.remote_of db k)
  ∧ dom db ⊆ dom (scan_db (Composite.localVisit Abs extensions path d e st).1).
Proof.
  intros [Hr Hdom]. unfold Composite.localVisit.
  destruct e as [e|]; [done|]. destruct d as [[name info | name r es]|]; try done.
  destruct (isExtensionAllowed path extensions); [|done].
  destruct info as [err|size]; [done|]. cbn [fst negb scan_db]. split.
  - intros k. by rewrite comp_remote_of_upsertLocal.
  - etrans; [exact Hdom|]. unfold Composite.upsertLocal.
    destruct (scan_db st !! (name, size)); rewrite dom_insert_L; set_solver.
Qed.

Lemma rel_localVisit_keeps (Rel : string → string → error + string)
    (extensions : list string) (root : string)
    (db : RelPath.DB) (path : string) (d : option DirEntry) (e : option error)
    (st : Scan RelPath.DB) :
  (∀ k, RelPath.seen_remote (scan_db st) k = RelPath.seen_remote db k)
  ∧ dom db ⊆ dom (scan_db st) →
  (∀ k, RelPath.seen_remote
          (scan_db (RelPath.localVisit Rel extensions root path d e st).1) k
        = RelPath.seen_remote db k)
  ∧ dom db ⊆ dom (scan_db (RelPath.localVisit Rel extensions root path d e st).1).
Proof.
  intros [Hr Hdom]. unfold RelPath.localVisit.
  destruct e as [e|]; [done|]. destruct d as [[name info | name r es]|]; try done.
  destruct (isExtensionAllowed path extensions); [|done].
  destruct (Rel root path) as [err|relPath]; [done|]. cbn [fst negb scan_db]. split.
  - intros k. by rewrite rel_seen_remote_upsertLocal.
  - etrans; [exact Hdom|]. unfold RelPath.upsertLocal.
    destruct (scan_db st !! relPath); rewrite dom_insert_L; set_solver.
Qed.

End LocalScanFrame.

(** X9: a local scan never changes what remote scans recorded and never
    removes a row, in both variants and whether the walk completes or is
    aborted by an error: in the table the scan has reached when it ends, the
    remote field of every identity is what it was and every identity is still
    there. *)
Theorem X9_local_scan_frame :
  (∀ (Abs : string → string) (cfg : Config) (path : string)
      (root : GoLib.error + GoLib.DirEntry) (db : Composite.DB),
     let st := match Composite.runAddLocal Abs cfg path root db with
               | inl (_, st) => st
               | inr st => st
               end in
     (∀ k, Composite.remote_of (scan_db st) k = Composite.remote_of db k)
     ∧ dom db ⊆ dom (scan_db st))
  ∧ (∀ (Rel : string → string → GoLib.error + string) (cfg : Config)
        (path : string) (root : GoLib.error + GoLib.DirEntry) (db : RelPath.DB),
     let st := match RelPath.runAddLocal Rel cfg path root db with
               | inl (_, st) => st
               | inr st => st
               end in
     (∀ k, RelPath.seen_remote (scan_db st) k = RelPath.seen_remote db k)
     ∧ dom db ⊆ dom (scan_db st)).
Proof.
  split.
  - intros Abs cfg path root db. unfold Composite.runAddLocal.
    match goal with |- context [GoLib.WalkDir ?f path root ?st0] =>
      pose proof (WalkDir_keeps f
        (λ st, (∀ k, Composite.remote_of (scan_db st) k = Composite.remote_of db k)
               ∧ dom db ⊆ dom (scan_db st))
        (comp_localVisit_keeps Abs (Extensions cfg) db) path root st0) as Hkeep;
      destruct (GoLib.WalkDir f path root st0) as [st' [e|]] end;
      apply Hkeep; done.
  - intros Rel cfg path root db. unfold RelPath.runAddLocal.
    match goal with |- context [GoLib.WalkDir ?f path root ?st0] =>
      pose proof (WalkDir_keeps f
        (λ st, (∀ k, RelPath.seen_remote (scan_db st) k = RelPath.seen_remote db k)
               ∧ dom db ⊆ dom (scan_db st))
        (rel_localVisit_keeps Rel (Extensions cfg) path db) path root st0) as Hkeep;
      destruct (GoLib.WalkDir f path root st0) as [st' [e|]] end;
      apply Hkeep; done.
Qed.

Section LocalScanCandidates.
Import GoLib.
Variable Abs : string → string.
Variable extensions : list string.

Lemma walkEach_candidates (ds : list DirEntry) (path : string) :
  Forall (λ d, ∀ path st,
            faulty (compFileFails extensions) path d = false →
            ∃ st', walkDir (Composite.localVisit Abs extensions) path d st = (st', None)
                   ∧ scan_db st'
                     = fold_left (mergeLocal Abs) (candidates extensions path d) (scan_db st)
                   ∧ scan_count st'
                     = (scan_count st + length (candidates extensions path d))%nat) ds →
  ∀ st,
    existsb (λ d1, faulty (compFileFails extensions) (Join path (Name d1)) d1) ds = false →
    ∃ st',
      walkEach (λ d1, walkDir (Composite.localVisit Abs extensions)
                        (Join path (Name d1)) d1) ds st = (st', None)
      ∧ scan_db st'
        = fold_left (mergeLocal Abs)
            (flat_map (λ d1, candidates extensions (Join path (Name d1)) d1) ds)
            (scan_db st)
      ∧ scan_count st'
        = (scan_count st
           + length (flat_map (λ d1, candidates extensions (Join path (Name d1)) d1) ds))%nat.
Proof.
  induction 1 as [|d ds Hd _ IH]; intros st Hok.
  - exists st. cbn. split_and!; [done | done | lia].
  - cbn [existsb] in Hok. apply orb_false_iff in Hok as [Hd_ok Hds_ok].
    destruct (Hd (Join path (Name d)) st Hd_ok) as (st1 & Hw & Hdb & Hcount).
    destruct (IH st1 Hds_ok) as (st2 & Hw2 & Hdb2 & Hcount2).
    exists st2. cbn [walkEach flat_map]. rewrite Hw.
    rewrite fold_left_app, List.length_app, <- Hdb, Hdb2, Hcount2, Hcount.
    split_and!; [done | done | lia].
Qed.

Lemma walkDir_candidates (d : DirEntry) :
  ∀ path st,
    faulty (compFileFails extensions) path d = false →
    ∃ st', walkDir (Composite.localVisit Abs extensions) path d st = (st', None)
           ∧ scan_db st'
             = fold_left (mergeLocal Abs) (candidates extensions path d) (scan_db st)
           ∧ scan_count st'
             = (scan_count st + length (candidates extensions path d))%nat.
Proof.
  induction d as [name info | name readErr entries IH] using DirEntry_nested_ind;
    intros path st Hok.
  - cbn [walkDir faulty candidates] in *. unfold compFileFails in Hok.
    unfold Composite.localVisit.
    destruct (isExtensionAllowed path extensions) eqn:Hext.
    + destruct info as [e|size]; [done|]. eexists. split; [reflexivity|].
      cbn. split; [done | lia].
    + exists st. destruct info; cbn; split_and!; try done; lia.
  - cbn [faulty] in Hok. apply orb_false_iff in Hok as [Hread Hok].
    destruct readErr as [e|].
    { by rewrite bool_decide_eq_true_2 in Hread. }
    cbn [walkDir candidates]. cbn [Composite.localVisit].
    by apply walkEach_candidates.
Qed.

End LocalScanCandidates.

(** X10: a local scan (composite scheme) that meets no error merges exactly
    the candidates of the tree, in the order of the walk: the entries that
    are not directories and whose path passes the extension filter, each
    under its base name and size with the absolute form of its path.
    Directories are never merged, whatever their names, and the number the
    scan reports is the number of candidates. *)
Theorem X10_local_scan_merges_candidates (Abs : string → string) (cfg : Config)
    (path : string) (d : GoLib.DirEntry) (db : Composite.DB) :
  faulty (compFileFails (Extensions cfg)) path d = false →
  ∃ st,
    Composite.runAddLocal Abs cfg path (inr d) db = inr st
    ∧ scan_db st
      = fold_left (mergeLocal Abs) (candidates (Extensions cfg) path d) db
    ∧ scan_count st = length (candidates (Extensions cfg) path d).
Proof.
  intros Hok. unfold Composite.runAddLocal, GoLib.WalkDir.
  match goal with |- context [GoLib.walkDir ?f path d ?st0] =>
    destruct (walkDir_candidates Abs (Extensions cfg) d path st0 Hok)
      as (st' & -> & Hdb & Hcount) end.
  eexists. split; [reflexivity|]. cbn [scan_db scan_count] in *.
  by rewrite Hdb, Hcount.
Qed.

Lemma X10_local_scan_merges_candidates_witness :
  let cfg := {| Extensions := [".jpg"] |} in
  let tree :=
    GoLib.DirNode "photos" None
      [GoLib.DirNode "album.jpg" None [GoLib.FileEntry "a.jpg" (inr 10%Z)];
       GoLib.FileEntry "notes.txt" (inr 5%Z)] in
  ∃ st,
    Composite.runAddLocal GoLib.Clean cfg "/photos" (inr tree) ∅ = inr st
    ∧ scan_db st
      = fold_left (mergeLocal GoLib.Clean)
          [("a.jpg", 10%Z, "/photos/album.jpg/a.jpg")] ∅
    ∧ scan_count st = 1%nat.
Proof.
  intros cfg tree.
  destruct (X10_local_scan_merges_candidates GoLib.Clean cfg "/photos" tree ∅)
    as (st & Hrun & Hdb & Hcount).
  - vm_compute. reflexivity.
  - exists st. split_and!; [exact Hrun | exact Hdb | exact Hcount].
Defined.

(** ** Lines of the remote listing *)

Section SplitFacts.
Import GoLib.

Lemma app_String (c : ascii) (a b : string) : String c a +:+ b = String c (a +:+ b).
Proof. reflexivity. Qed.

(** [strings.Split] returns one field more than there are separators. *)
Lemma Split_length (s : string) (sep : ascii) :
  length (Split s sep) = S (countByte sep s).
Proof.
  induction s as [|c s IH]; [done|]. cbn [Split countByte].
  destruct (Ascii.eqb c sep); cbn [length]; [rewrite IH; lia|].
  destruct (Split s sep); cbn [length] in *; lia.
Qed.

Lemma Split_no_sep (s : string) (sep : ascii) :
  countByte sep s = 0%nat → Split s sep = [s].
Proof.
  induction s as [|c s IH]; [done|]. cbn [Split countByte].
  destruct (Ascii.eqb c sep); [done|]. intros Hs. by rewrite IH.
Qed.

Lemma Split_app_sep (a b : string) (sep : ascii) :
  countByte sep a = 0%nat → Split (a +:+ String sep b) sep = a :: Split b sep.
Proof.
  induction a as [|c a IH]; cbn [countByte].
  - intros _. change ("" +:+ String sep b) with (String sep b).
    cbn [Split]. by rewrite Ascii.eqb_refl.
  - rewrite app_String. cbn [Split].
    destruct (Ascii.eqb c sep); [done|]. intros Ha. by rewrite IH.
Qed.

(** A listing line whose name and size fields hold no tab, and whose path
    holds none either, splits into exactly these three fields. *)
Lemma Split_findLine (name sz path : string) :
  countByte TAB name = 0%nat → countByte TAB sz = 0%nat →
  countByte TAB path = 0%nat →
  Split (findLine name sz path) TAB = [name; sz; path].
Proof.
  intros Hn Hs Hp. unfold findLine.
  by rewrite !Split_app_sep, Split_no_sep.
Qed.

Lemma parse_digits_no_tab (s : string) (acc z : Z) :
  parse_digits acc s = Some z → countByte TAB s = 0%nat.
Proof.
  revert acc. induction s as [|c s IH]; intros acc; [done|]. cbn [parse_digits countByte].
  destruct (digit_val c) as [d|] eqn:Hd; [|done].
  destruct (Ascii.eqb_spec c TAB) as [->|_]; [done|]. apply IH.
Qed.

Lemma ParseInt_no_tab (s : string) (z : Z) :
  ParseInt s = Some z → countByte TAB s = 0%nat.
Proof.
  unfold ParseInt. destruct s as [|c rest]; [done|].
  destruct (Ascii.eqb_spec c "+") as [->|_]; [|destruct (Ascii.eqb_spec c "-") as [->|_]].
  - destruct rest as [|c' rest']; [done|].
    destruct (parse_digits 0 (String c' rest')) as [un|] eqn:Hp; [|done].
    intros _. by apply parse_digits_no_tab in Hp.
  - destruct rest as [|c' rest']; [done|].
    destruct (parse_digits 0 (String c' rest')) as [un|] eqn:Hp; [|done].
    intros _. by apply parse_digits_no_tab in Hp.
  - destruct (parse_digits 0 (String c rest)) as [un|] eqn:Hp; [|done].
    intros _. by apply parse_digits_no_tab in Hp.
Qed.

End SplitFacts.

(** X11: the parse loop of the remote scan accepts a line only when it holds
    exactly two tabs; any other line, such as the line of a file whose name
    or path contains a tab, leaves the table, the counter and the output as
    they are. *)
Theorem X11_line_needs_two_tabs (extensions : list string)
    (st : Scan Composite.DB) (line : string) :
  countByte GoLib.TAB line ≠ 2%nat →
  Composite.remoteLine extensions st line = st.
Proof.
  intros Htabs. apply remoteLine_malformed. unfold malformed.
  pose proof (Split_length line GoLib.TAB) as Hlen.
  destruct (GoLib.Split line GoLib.TAB) as [|a [|b [|c [|? ?]]]]; try done.
  cbn in Hlen. congruence.
Qed.

Lemma X11_line_needs_two_tabs_witness :
  let name := "a" +:+ String GoLib.TAB "b.jpg" in
  let st := MkScan (∅ : Composite.DB) 0 [] in
  Composite.remoteLine [".jpg"] st (findLine name "10" ("/r/" +:+ name)) = st.
Proof.
  intros name st. apply X11_line_needs_two_tabs. vm_compute. lia.
Defined.

(** X12: a listing line whose path field is empty is accepted and counted,
    but it records the empty path as the remote path of the identity, which
    the reports read as absent: a file with a local path is then reported as
    missing from remote, whatever its remote path was before. *)
Theorem X12_empty_path_field (extensions : list string) (st : Scan Composite.DB)
    (name sz : string) (size : Z) :
  countByte GoLib.TAB name = 0%nat →
  GoLib.ParseInt sz = Some size →
  isExtensionAllowed name extensions = true →
  let st' := Composite.remoteLine extensions st (findLine name sz "") in
  scan_count st' = S (scan_count st)
  ∧ Composite.remote_of (scan_db st') (name, size) = Some ""
  ∧ ∀ p, Composite.local_of (scan_db st) (name, size) = Some p → p ≠ "" →
         p ∈ Composite.queryMissing (scan_db st').
Proof.
  intros Hname Hsz Hext st'.
  assert (st' = MkScan (Composite.upsertRemote (scan_db st) name size "")
                  (S (scan_count st))
                  (progress "remote" (S (scan_count st)) (scan_out st))) as ->.
  { unfold st'. apply (remoteLine_denotes _ _ _ (name, size, "")).
    exists sz. split_and!; [|done..].
    apply Split_findLine; [done | by eapply ParseInt_no_tab | done]. }
  cbn [scan_db scan_count]. split_and!; [done | apply comp_remote_of_upsertRemote |].
  intros p Hp Hne. apply comp_mem_queryMissing.
  eexists (name, size), _. split.
  { rewrite comp_lookup_upsertRemote. by rewrite decide_True. }
  cbn. rewrite Hp. split_and!; [by apply is_set_Some | done | done].
Qed.

Lemma X12_empty_path_field_witness :
  let db :=
    Composite.upsertRemote
      (Composite.upsertLocal ∅ "a.jpg" 10 "/local/a.jpg") "a.jpg" 10 "/remote/a.jpg" in
  let st' := Composite.remoteLine [".jpg"] (MkScan db 0 []) (findLine "a.jpg" "10" "") in
  scan_count st' = 1%nat
  ∧ Composite.remote_of (scan_db st') ("a.jpg", 10%Z) = Some ""
  ∧ "/local/a.jpg" ∈ Composite.queryMissing (scan_db st').
Proof.
  intros db st'.
  destruct (X12_empty_path_field [".jpg"] (MkScan db 0 []) "a.jpg" "10" 10)
    as (Hcount & Hremote & Hmissing); [reflexivity | reflexivity | reflexivity |].
  split_and!; [exact Hcount | exact Hremote |].
  apply Hmissing; [vm_compute; reflexivity | done].
Defined.

Section DecimalFacts.
Import GoLib.

Lemma digit_val_pretty_N_char (d : N) :
  (d < 10)%N → digit_val (pretty_N_char d) = Some (Z.of_N d).
Proof.
  intros Hd.
  assert (d = 0 ∨ d = 1 ∨ d = 2 ∨ d = 3 ∨ d = 4 ∨ d = 5 ∨ d = 6 ∨ d = 7
          ∨ d = 8 ∨ d = 9)%N as Hcases by lia.
  decompose [or] Hcases; subst; reflexivity.
Qed.

(** Reading the decimal digits that [pretty] writes in front of [s] shifts
    the accumulator by as many places and adds the number written. *)
Lemma parse_digits_pretty_N_go (x : N) :
  ∃ k : Z, (0 ≤ k)%Z ∧
    ∀ s acc, parse_digits acc (pretty_N_go x s)
             = parse_digits (acc * 10 ^ k + Z.of_N x) s.
Proof.
  induction (N.lt_wf_0 x) as [x _ IH].
  destruct (decide (x = 0%N)) as [->|Hx].
  - exists 0%Z. split; [done|]. intros s acc. rewrite pretty_N_go_0.
    f_equal. lia.
  - destruct (IH (x `div` 10)%N) as (k & Hk & Hparse).
    { apply N.div_lt; lia. }
    exists (k + 1)%Z. split; [lia|]. intros s acc.
    rewrite pretty_N_go_step by lia. rewrite Hparse. cbn [parse_digits].
    rewrite digit_val_pretty_N_char by (apply N.mod_lt; lia).
    f_equal. rewrite Z.pow_add_r, Z.pow_1_r by lia.
    rewrite N2Z.inj_div, N2Z.inj_mod. change (Z.of_N 10) with 10%Z.
    pose proof (Z.div_mod (Z.of_N x) 10). lia.
Qed.

Lemma parse_digits_pretty_N (x : N) :
  parse_digits 0 (pretty_N_go x "") = Some (Z.of_N x).
Proof.
  destruct (parse_digits_pretty_N_go x) as (k & _ & ->). cbn [parse_digits].
  f_equal; lia.
Qed.

Lemma ParseInt_digits (s : string) (un : Z) :
  s ≠ "" → parse_digits 0 s = Some un →
  ParseInt s = if (un <? 2 ^ 63)%Z then Some un else None.
Proof.
  intros Hs Hp. destruct s as [|c rest]; [done|].
  assert (is_Some (digit_val c)) as [d Hd].
  { cbn [parse_digits] in Hp. by destruct (digit_val c). }
  unfold ParseInt.
  destruct (Ascii.eqb_spec c "+") as [->|_]; [done|].
  destruct (Ascii.eqb_spec c "-") as [->|_]; [done|].
  by rewrite Hp.
Qed.

Lemma ParseInt_minus (s : string) (un : Z) :
  s ≠ "" → parse_digits 0 s = Some un →
  ParseInt ("-" +:+ s) = if (un <=? 2 ^ 63)%Z then Some (- un)%Z else None.
Proof.
  intros Hs Hp. destruct s as [|c rest]; [done|].
  change (ParseInt ("-" +:+ String c rest))
    with (match parse_digits 0 (String c rest) with
          | None => None
          | Some un => if (un <=? 2 ^ 63)%Z then Some (- un)%Z else None
          end).
  by rewrite Hp.
Qed.

Lemma pretty_pos_digits (p : positive) :
  pretty_N_go (N.pos p) "" ≠ ""
  ∧ parse_digits 0 (pretty_N_go (N.pos p) "") = Some (Z.pos p).
Proof.
  pose proof (parse_digits_pretty_N (N.pos p)) as Hp. split; [|done].
  intros Hempty. rewrite Hempty in Hp. done.
Qed.

(** [strconv.ParseInt] reads back the decimal form of every int64. *)
Lemma ParseInt_pretty (z : Z) : int64 z → ParseInt (pretty z) = Some z.
Proof.
  unfold int64. intros Hz. destruct z as [|p|p].
  - reflexivity.
  - destruct (pretty_pos_digits p) as [Hne Hp].
    change (pretty (Z.pos p)) with (pretty_N_go (N.pos p) "").
    rewrite (ParseInt_digits _ _ Hne Hp).
    case_match eqn:Hlt; [done|]. apply Z.ltb_ge in Hlt. lia.
  - destruct (pretty_pos_digits p) as [Hne Hp].
    change (pretty (Z.neg p)) with ("-" +:+ pretty_N_go (N.pos p) "").
    rewrite (ParseInt_minus _ _ Hne Hp).
    case_match eqn:Hle; [done|]. apply Z.leb_gt in Hle. lia.
Qed.

Lemma pretty_no_tab (z : Z) : int64 z → countByte TAB (pretty z) = 0%nat.
Proof. intros Hz. eapply ParseInt_no_tab. by apply ParseInt_pretty. Qed.

End DecimalFacts.

(** The loop body reads the token name, tab, decimal size, tab, path back as
    that candidate, when the name and the path hold no tab, the size is an
    int64 and the name passes the extension filter. *)
Lemma remoteLine_findLine_pretty (extensions : list string)
    (st : Scan Composite.DB) (name path : string) (size : Z) :
  countByte GoLib.TAB name = 0%nat →
  countByte GoLib.TAB path = 0%nat →
  int64 size →
  isExtensionAllowed name extensions = true →
  Composite.remoteLine extensions st (findLine name (pretty size) path)
  = MkScan (Composite.upsertRemote (scan_db st) name size path)
           (S (scan_count st))
           (progress "remote" (S (scan_count st)) (scan_out st)).
Proof.
  intros Hname Hpath Hsize Hext.
  apply (remoteLine_denotes _ _ _ (name, size, path)).
  exists (pretty size). split_and!.
  - apply Split_findLine; [done | by apply pretty_no_tab | done].
  - by apply ParseInt_pretty.
  - done.
Qed.

(** ** The remote scan of the relative-path variant *)

Section RelRemoteFold.
Import RelPath.

Lemma rel_seen_remote_upsertRemote_any (db : DB) (p k : string) :
  seen_remote (upsertRemote db p) k
  = if decide (p = k) then true else seen_remote db k.
Proof.
  unfold seen_remote at 1. rewrite rel_lookup_upsertRemote. by case_decide.
Qed.

Lemma rel_remote_fold_seen_local (keys : list string) (db : DB) (k : string) :
  seen_local (fold_left upsertRemote keys db) k = seen_local db k.
Proof.
  revert db. induction keys as [|p keys IH]; intros db; [done|].
  cbn [fold_left]. by rewrite IH, rel_seen_local_upsertRemote.
Qed.

Lemma rel_remote_fold_seen_remote (keys : list string) (db : DB) (k : string) :
  seen_remote (fold_left upsertRemote keys db) k
  = bool_decide (k ∈ keys) || seen_remote db k.
Proof.
  revert db. induction keys as [|p keys IH]; intros db; [done|].
  cbn [fold_left]. rewrite IH, rel_seen_remote_upsertRemote_any.
  destruct (decide (p = k)) as [->|Hne]; apply eq_bool_prop_intro;
    rewrite !orb_True, !bool_decide_spec, elem_of_cons; naive_solver.
Qed.

End RelRemoteFold.

Section RelRemoteScan.
Import RelPath.
Variable Rel : string → string → GoLib.error + string.
Variable Base : string → string.

Lemma rel_remoteLines (extensions : list string) (root : string)
    (lines : list string) (st : Scan DB) :
  let keys := remoteKey Rel Base root
                <$> filter (λ l, isExtensionAllowed l extensions) lines in
  scan_db (fold_left (remoteLine Rel Base extensions root) lines st)
  = fold_left upsertRemote keys (scan_db st)
  ∧ scan_count (fold_left (remoteLine Rel Base extensions root) lines st)
  = (scan_count st + length keys)%nat.
Proof.
  revert st. induction lines as [|line lines IH]; intros st.
  - cbn. split; [done | lia].
  - cbn [fold_left]. cbv zeta in *. rewrite filter_cons.
    destruct (IH (remoteLine Rel Base extensions root st line)) as [-> ->].
    unfold remoteLine.
    destruct (isExtensionAllowed line extensions) eqn:Hext.
    + case_decide; [|done]. cbn. split; [done | lia].
    + case_decide; [done|]. cbn. done.
Qed.

End RelRemoteScan.

(** The loop over the tokens of the scanner (relative-path variant): it
    merges the tokens that pass the extension filter, and no other. *)
Lemma rel_remote_tokens_scan
    (Rel : string → string → GoLib.error + string) (Base : string → string)
    (cfg : Config) (remote path : string) (lines : list string) (db : RelPath.DB) :
  let keys := RelPath.remoteKey Rel Base path
                <$> filter (λ l, isExtensionAllowed l (Extensions cfg)) lines in
  ∃ st,
    RelPath.runAddRemote Rel Base cfg remote path (inr lines) db = inr st
    ∧ scan_db st = fold_left RelPath.upsertRemote keys db
    ∧ scan_count st = length keys
    ∧ (∀ k, RelPath.seen_local (scan_db st) k = RelPath.seen_local db k)
    ∧ (∀ line, line ∈ lines → isExtensionAllowed line (Extensions cfg) = true →
         RelPath.seen_remote (scan_db st) (RelPath.remoteKey Rel Base path line) = true).
Proof.
  intros keys. unfold RelPath.runAddRemote. eexists. split; [reflexivity|].
  cbn [scan_db scan_count].
  match goal with |- context [fold_left _ lines ?st0] =>
    destruct (rel_remoteLines Rel Base (Extensions cfg) path lines st0) as [Hdb Hcount]
  end.
  cbn [scan_db scan_count] in *. fold keys in Hdb, Hcount. rewrite Hdb, Hcount.
  split_and!; [done | done | |].
  - intros k. apply rel_remote_fold_seen_local.
  - intros line Hin Hext. rewrite rel_remote_fold_seen_remote.
    rewrite bool_decide_eq_true_2; [done|].
    unfold keys. apply (list_elem_of_fmap_2 (RelPath.remoteKey Rel Base path)).
    apply list_elem_of_filter. split; [|done]. by rewrite Hext.
Qed.

(** ** Scans and reports together *)

Section Reconciliation.

Lemma relMerge_fold_empty (obs : list (Origin * string)) (k : string) :
  fold_left relMerge obs ∅ !! k
  = if decide (k ∈ obs.*2)
    then Some {| RelPath.on_local := bool_decide ((Local, k) ∈ obs);
                 RelPath.on_remote := bool_decide ((Remote, k) ∈ obs) |}
    else None.
Proof.
  rewrite relMerge_fold_lookup.
  unfold RelPath.seen_local, RelPath.seen_remote. by rewrite lookup_empty.
Qed.

Lemma comp_fields_row (db : Composite.DB) (k : string * Z) (p : string) :
  Composite.local_of db k = Some p →
  ∃ row, db !! k = Some row ∧ Composite.local_path row = Some p
         ∧ Composite.remote_path row = Composite.remote_of db k.
Proof.
  unfold Composite.local_of, Composite.remote_of.
  destruct (db !! k) as [row|]; [|done]. intros Hp. by exists row.
Qed.

End Reconciliation.

(** X15: merges and the missing-from-remote report fit together.  After any
    sequence of merges into an empty table, a path is reported as missing
    from remote exactly when it is the last local path of an identity that
    was never observed remotely (composite scheme, all observed paths being
    non-empty); under the relative-path scheme, exactly when the path was
    observed locally and never remotely. *)
Theorem X15_missing_iff_never_seen_remotely :
  (∀ (obs : list (Origin * (string * Z) * string)) (p : string),
     (∀ ob, ob ∈ obs → ob.2 ≠ "") →
     p ∈ Composite.queryMissing (fold_left compMerge obs ∅)
     ↔ ∃ k, lastPath Local k obs = Some p ∧ lastPath Remote k obs = None)
  ∧ (∀ (obs : list (Origin * string)) (p : string),
     p ∈ RelPath.queryMissing (fold_left relMerge obs ∅)
     ↔ (Local, p) ∈ obs ∧ (Remote, p) ∉ obs).
Proof.
  split.
  - intros obs p Hpaths. rewrite comp_mem_queryMissing.
    assert (∀ k, Composite.local_of (fold_left compMerge obs ∅) k = lastPath Local k obs
                 ∧ Composite.remote_of (fold_left compMerge obs ∅) k
                   = lastPath Remote k obs) as Hfields.
    { intros k. destruct (compMerge_fold_fields obs ∅ k) as [-> ->].
      unfold Composite.local_of, Composite.remote_of. rewrite lookup_empty.
      by split; case_match. }
    split.
    + intros (k & row & Hrow & _ & Hunset & Hp). exists k.
      destruct (Hfields k) as [Hl Hr].
      unfold Composite.local_of, Composite.remote_of in Hl, Hr.
      rewrite Hrow in Hl, Hr. simpl in Hl, Hr. split; [congruence|].
      destruct (lastPath Remote k obs) as [q|] eqn:Hq; [|done].
      apply lastPath_elem_of, Hpaths in Hq. simpl in Hq.
      rewrite Hr, is_unset_Some in Hunset; done.
    + intros (k & Hl & Hr). destruct (Hfields k) as [Hl' Hr'].
      rewrite Hl in Hl'. apply comp_fields_row in Hl' as (row & Hrow & Hlp & Hrp).
      exists k, row. rewrite Hrp, Hr', Hr, Hlp. split_and!; try done.
      apply is_set_Some. by apply lastPath_elem_of, Hpaths in Hl.
  - intros obs p. unfold RelPath.queryMissing. rewrite list_elem_of_omap. split.
    + intros ([k row] & Hin & Hsel). apply elem_of_map_to_list in Hin.
      rewrite relMerge_fold_empty in Hin. simpl in Hsel.
      case_decide; [|done]. simplify_eq/=.
      destruct (bool_decide ((Local, k) ∈ obs)) eqn:Hl; [|done].
      destruct (bool_decide ((Remote, k) ∈ obs)) eqn:Hr; [done|].
      simplify_eq/=. split.
      * by apply bool_decide_eq_true in Hl.
      * by apply bool_decide_eq_false in Hr.
    + intros [Hl Hr].
      exists (p, {| RelPath.on_local := true; RelPath.on_remote := false |}). split.
      * apply elem_of_map_to_list. rewrite relMerge_fold_empty.
        rewrite decide_True by (by apply (list_elem_of_fmap_2 snd) in Hl).
        by rewrite bool_decide_eq_true_2, bool_decide_eq_false_2.
      * done.
Qed.

Lemma X15_missing_iff_never_seen_remotely_witness :
  "/local/fileA.jpg"
  ∈ Composite.queryMissing
      (fold_left compMerge
         [(Local, ("fileA.jpg", 100%Z), "/local/fileA.jpg");
          (Remote, ("fileB.jpg", 200%Z), "/remote/fileB.jpg");
          (Local, ("fileC.jpg", 300%Z), "/local/fileC.jpg");
          (Remote, ("fileC.jpg", 300%Z), "/remote/fileC.jpg")] ∅).
Proof.
  apply (proj1 X15_missing_iff_never_seen_remotely).
  - intros ob Hin. repeat (apply elem_of_cons in Hin as [-> | Hin]; [done|]).
    by apply elem_of_nil in Hin.
  - exists ("fileA.jpg", 100%Z). split; vm_compute; reflexivity.
Defined.

(** X16: a row is created by the first observation of an identity, from
    either origin, and completed by the other.  For an identity without a
    row, the flags [assertFileState] reads are (local, not remote) after a
    local merge, (local, remote) after a following remote merge, and (not
    local, remote) after a remote merge alone; in the composite variant for
    non-empty paths. *)
Theorem X16_first_observation_creates_row :
  (∀ (db : Composite.DB) (f : string) (s : Z) (p q : string),
     db !! (f, s) = None → p ≠ "" → q ≠ "" →
     compFileState (Composite.upsertLocal db f s p) f s = Some (true, false)
     ∧ compFileState (Composite.upsertRemote (Composite.upsertLocal db f s p) f s q) f s
       = Some (true, true)
     ∧ compFileState (Composite.upsertRemote db f s q) f s = Some (false, true))
  ∧ (∀ (db : RelPath.DB) (p : string),
     db !! p = None →
     relFileState (RelPath.upsertLocal db p) p = Some (true, false)
     ∧ relFileState (RelPath.upsertRemote (RelPath.upsertLocal db p) p) p
       = Some (true, true)
     ∧ relFileState (RelPath.upsertRemote db p) p = Some (false, true)).
Proof.
  split.
  - intros db f s p q Hnone Hp Hq. unfold compFileState.
    repeat (rewrite ?comp_lookup_upsertLocal, ?comp_lookup_upsertRemote;
            unfold Composite.local_of, Composite.remote_of).
    rewrite !decide_True by done. rewrite Hnone. cbn [mbind option_bind].
    cbn [Composite.local_path Composite.remote_path].
    rewrite !is_set_Some by done. done.
  - intros db p Hnone. unfold relFileState.
    repeat (rewrite ?rel_lookup_upsertLocal, ?rel_lookup_upsertRemote;
            unfold RelPath.seen_local, RelPath.seen_remote).
    rewrite !decide_True by done. rewrite Hnone. done.
Qed.

Lemma X16_first_observation_creates_row_witness :
  compFileState
    (Composite.upsertLocal ∅ "img1.jpg" 1024 "/local/2023/vacation/img1.jpg")
    "img1.jpg" 1024 = Some (true, false)
  ∧ compFileState
      (Composite.upsertRemote
         (Composite.upsertLocal ∅ "img1.jpg" 1024 "/local/2023/vacation/img1.jpg")
         "img1.jpg" 1024 "/remote/backup/img1.jpg")
      "img1.jpg" 1024 = Some (true, true)
  ∧ compFileState (Composite.upsertRemote ∅ "img1.jpg" 1024 "/remote/backup/img1.jpg")
      "img1.jpg" 1024 = Some (false, true).
Proof.
  apply (proj1 X16_first_observation_creates_row ∅ "img1.jpg" 1024%Z
           "/local/2023/vacation/img1.jpg" "/remote/backup/img1.jpg");
    [reflexivity | done | done].
Defined.

(** ** The remote scan, from the bytes of the listing *)

Section ScannerFacts.
Import GoLib.

Lemma Split_listing (lines : list string) :
  Forall (λ line, countByte NL line = 0%nat) lines →
  Split (listing lines) NL = lines ++ [""].
Proof.
  induction 1 as [|line lines Hline _ IH]; [done|].
  cbn [listing fold_right app]. fold (listing lines).
  by rewrite Split_app_sep, IH.
Qed.

Lemma rawLines_listing (lines : list string) :
  Forall (λ line, countByte NL line = 0%nat) lines →
  rawLines (listing lines) = lines.
Proof.
  intros Hlines. unfold rawLines. rewrite Split_listing by done.
  rewrite List.last_last, String.eqb_refl. apply List.removelast_last.
Qed.

(** The lines before a line, whatever follows it. *)
Lemma rawLines_listing_app (pre post : list string) (line : string) :
  Forall (λ line, countByte NL line = 0%nat) pre →
  countByte NL line = 0%nat →
  ∃ rest, rawLines (listing (pre ++ line :: post)) = pre ++ line :: rest.
Proof.
  intros Hpre Hline.
  assert (Split (listing (pre ++ line :: post)) NL
          = pre ++ line :: Split (listing post) NL) as Hsplit.
  { induction Hpre as [|l pre Hl _ IH].
    - cbn [app listing fold_right]. fold (listing post).
      by rewrite Split_app_sep.
    - cbn [app listing fold_right]. fold (listing (pre ++ line :: post)).
      by rewrite Split_app_sep, IH. }
  unfold rawLines. rewrite Hsplit.
  pose proof (Split_length (listing post) NL) as Hlen.
  destruct (Split (listing post) NL) as [|f fields] eqn:Hf; [done|].
  case_match; [|by eexists].
  exists (removelast (f :: fields)).
  rewrite List.removelast_app by done. done.
Qed.

Lemma withinBuffer_short (lines rest : list string) :
  Forall (λ line, (N.of_nat (String.length line) < MaxScanTokenSize)%N) lines →
  withinBuffer (lines ++ rest) = lines ++ withinBuffer rest.
Proof.
  induction 1 as [|line lines Hline _ IH]; [done|].
  cbn [app withinBuffer]. apply N.ltb_lt in Hline. by rewrite Hline, IH.
Qed.

Lemma withinBuffer_long (line : string) (rest : list string) :
  (MaxScanTokenSize ≤ N.of_nat (String.length line))%N →
  withinBuffer (line :: rest) = [].
Proof. intros Hlong. cbn [withinBuffer]. apply N.ltb_ge in Hlong. by rewrite Hlong. Qed.

Lemma dropCR_fmap (lines : list string) :
  Forall (λ line, HasSuffix line CR = false) lines → dropCR <$> lines = lines.
Proof.
  induction 1 as [|line lines Hline _ IH]; [done|].
  cbn [fmap list_fmap]. unfold dropCR at 1. rewrite Hline. f_equal. exact IH.
Qed.

(** The scanner hands the lines of a listing to the loop, each without the
    carriage return at its end, when they fit into the buffer. *)
Lemma ScanLines_listing_fits (lines : list string) :
  Forall fitsBuffer lines → ScanLines (listing lines) = dropCR <$> lines.
Proof.
  intros Hlines. unfold ScanLines.
  rewrite rawLines_listing by (eapply Forall_impl; [done|]; by intros ? (? & _)).
  rewrite <- (app_nil_r lines) at 1.
  rewrite withinBuffer_short by (eapply Forall_impl; [done|]; by intros ? (_ & ?)).
  cbn [withinBuffer]. by rewrite app_nil_r.
Qed.

Lemma scannable_fitsBuffer (lines : list string) :
  Forall scannable lines → Forall fitsBuffer lines.
Proof. intros Hl. eapply Forall_impl; [done|]. by intros ? (? & _ & ?). Qed.

(** The scanner hands the lines of a listing to the loop as they are, when
    they are scannable. *)
Lemma ScanLines_listing (lines : list string) :
  Forall scannable lines → ScanLines (listing lines) = lines.
Proof.
  intros Hlines. rewrite ScanLines_listing_fits by by apply scannable_fitsBuffer.
  apply dropCR_fmap. eapply Forall_impl; [done|]. by intros ? (_ & ? & _).
Qed.

(** The scanner stops at a line of [MaxScanTokenSize] bytes or more. *)
Lemma ScanLines_long (pre post : list string) (long : string) :
  Forall fitsBuffer pre →
  countByte NL long = 0%nat →
  (MaxScanTokenSize ≤ N.of_nat (String.length long))%N →
  ScanLines (listing (pre ++ long :: post)) = dropCR <$> pre.
Proof.
  intros Hpre Hnl Hlong. unfold ScanLines.
  destruct (rawLines_listing_app pre post long) as [rest ->]; [|done|].
  { eapply Forall_impl; [done|]. by intros ? (? & _). }
  rewrite withinBuffer_short by (eapply Forall_impl; [done|]; by intros ? (_ & ?)).
  rewrite withinBuffer_long by done. by rewrite app_nil_r.
Qed.

Lemma countByte_app (c : ascii) (a b : string) :
  countByte c (a +:+ b) = (countByte c a + countByte c b)%nat.
Proof.
  induction a as [|c' a IH]; [done|].
  rewrite app_String. cbn [countByte]. rewrite IH. lia.
Qed.

Lemma countByte_doubled (c : ascii) (n : nat) (s : string) :
  countByte c s = 0%nat → countByte c (doubled n s) = 0%nat.
Proof.
  revert s. induction n as [|n IH]; intros s Hs; [done|].
  cbn [doubled]. apply IH. rewrite countByte_app. lia.
Qed.

Lemma length_doubled (n : nat) (s : string) :
  String.length (doubled n s) = (2 ^ n * String.length s)%nat.
Proof.
  revert s. induction n as [|n IH]; intros s.
  - cbn. lia.
  - cbn [doubled]. rewrite IH, length_app, Nat.pow_succ_r'. lia.
Qed.

End ScannerFacts.

Section RecordFacts.

(** The listing line of a candidate stands for that candidate. *)
Lemma recordLine_denotes (extensions : list string) (cand : string * Z * string) :
  countByte GoLib.TAB cand.1.1 = 0%nat →
  countByte GoLib.TAB cand.2 = 0%nat →
  int64 cand.1.2 →
  isExtensionAllowed cand.1.1 extensions = true →
  denotes extensions (recordLine cand) cand.
Proof.
  intros Hname Hpath Hsize Hext. exists (pretty cand.1.2). split_and!.
  - apply Split_findLine; [done | by apply pretty_no_tab | done].
  - by apply ParseInt_pretty.
  - done.
Qed.

End RecordFacts.




(** X13: the listing format and the remote scan fit together.  For a listing
    made of the lines of candidates (name, decimal size, path, separated by
    tabs, each line ended by a newline), where the names and paths hold no
    tab, the sizes are int64, the names pass the extension filter and the
    scanner hands the lines over as they are (no line break inside a line,
    no carriage return at its end, fewer than 65536 bytes), the scan performs
    exactly the remote merges of these candidates, in order, and reports
    their number. *)
Theorem X13_listing_round_trip (cfg : Config) (remote path : string)
    (cands : list (string * Z * string)) (db : Composite.DB) :
  Forall (λ cand : string * Z * string,
            countByte GoLib.TAB cand.1.1 = 0%nat
            ∧ countByte GoLib.TAB cand.2 = 0%nat
            ∧ int64 cand.1.2
            ∧ isExtensionAllowed cand.1.1 (Extensions cfg) = true
            ∧ scannable (recordLine cand)) cands →
  ∃ st,
    Composite.runAddRemoteOut cfg remote path
      (inr (listing (recordLine <$> cands))) db = inr st
    ∧ scan_db st = fold_left mergeRemote cands db
    ∧ scan_count st = length cands.
Proof.
  intros Hcands. unfold Composite.runAddRemoteOut.
  rewrite ScanLines_listing.
  2:{ apply Forall_fmap. eapply Forall_impl; [exact Hcands|].
      by intros cand (_ & _ & _ & _ & ?). }
  eexists. split; [reflexivity|]. cbn [scan_db scan_count].
  assert (Forall2 (denotes (Extensions cfg)) (recordLine <$> cands) cands) as Hall.
  { induction Hcands as [|cand cands (Hn & Hp & Hs & He & _) _ IH]; constructor;
      [by apply recordLine_denotes | exact IH]. }
  pose proof (Forall2_length _ _ _ Hall) as Hlen.
  eapply remoteLines_denote in Hall as [-> ->]. cbn [scan_db scan_count].
  split; [done | lia].
Qed.

Lemma X13_listing_round_trip_witness :
  ∃ st,
    Composite.runAddRemoteOut {| Extensions := [".jpg"] |} "host" "/backup"
      (inr (listing (recordLine <$> [("img 1.jpg", 4096%Z, "/backup/2023/img 1.jpg");
                                     ("b.jpg", 20%Z, "/backup/b.jpg")]))) ∅
    = inr st
    ∧ scan_db st
      = fold_left mergeRemote [("img 1.jpg", 4096%Z, "/backup/2023/img 1.jpg");
                               ("b.jpg", 20%Z, "/backup/b.jpg")] ∅
    ∧ scan_count st = 2%nat.
Proof.
  apply (X13_listing_round_trip {| Extensions := [".jpg"] |} "host" "/backup"
           [("img 1.jpg", 4096%Z, "/backup/2023/img 1.jpg");
            ("b.jpg", 20%Z, "/backup/b.jpg")] ∅).
  repeat constructor; vm_compute; congruence.
Defined.

(** X14: the remote scan of the relative-path variant merges exactly the
    tokens of its line scanner that pass the extension filter: it performs
    the remote merges of their keys (the path relative to the scan root, or
    the base name when that cannot be computed) in order, and reports their
    number; every such key is marked as seen remotely afterwards, and the
    local flag of every identity is what it was.  For a listing whose lines
    the scanner hands over as they are, the tokens are the lines of the
    listing. *)
Theorem X14_relpath_remote_scan
    (Rel : string → string → GoLib.error + string) (Base : string → string)
    (cfg : Config) (remote path : string) (db : RelPath.DB) :
  (∀ stdout : string,
     let keys := RelPath.remoteKey Rel Base path
                   <$> filter (λ l, isExtensionAllowed l (Extensions cfg))
                              (GoLib.ScanLines stdout) in
     ∃ st,
       RelPath.runAddRemoteOut Rel Base cfg remote path (inr stdout) db = inr st
       ∧ scan_db st = fold_left RelPath.upsertRemote keys db
       ∧ scan_count st = length keys
       ∧ (∀ k, RelPath.seen_local (scan_db st) k = RelPath.seen_local db k)
       ∧ (∀ line, line ∈ GoLib.ScanLines stdout →
            isExtensionAllowed line (Extensions cfg) = true →
            RelPath.seen_remote (scan_db st) (RelPath.remoteKey Rel Base path line)
            = true))
  ∧ (∀ lines : list string,
     Forall scannable lines →
     let keys := RelPath.remoteKey Rel Base path
                   <$> filter (λ l, isExtensionAllowed l (Extensions cfg)) lines in
     ∃ st,
       RelPath.runAddRemoteOut Rel Base cfg remote path (inr (listing lines)) db
       = inr st
       ∧ scan_db st = fold_left RelPath.upsertRemote keys db
       ∧ scan_count st = length keys
       ∧ (∀ line, line ∈ lines →
            isExtensionAllowed line (Extensions cfg) = true →
            RelPath.seen_remote (scan_db st) (RelPath.remoteKey Rel Base path line)
            = true)).
Proof.
  assert (∀ stdout,
            RelPath.runAddRemoteOut Rel Base cfg remote path (inr stdout) db
            = RelPath.runAddRemote Rel Base cfg remote path
                (inr (GoLib.ScanLines stdout)) db) as Hout by done.
  split.
  - intros stdout keys. rewrite Hout.
    apply (rel_remote_tokens_scan Rel Base cfg remote path (GoLib.ScanLines stdout) db).
  - intros lines Hlines keys. rewrite Hout, ScanLines_listing by done.
    destruct (rel_remote_tokens_scan Rel Base cfg remote path lines db)
      as (st & Hrun & Hdb & Hcount & _ & Hseen).
    exists st. done.
Qed.

Lemma X14_relpath_remote_scan_witness :
  let Rel := λ root full : string,
    inr (substring (S (String.length root)) (String.length full) full)
    : GoLib.error + string in
  ∃ st,
    RelPath.runAddRemoteOut Rel id {| Extensions := [".jpg"] |} "host" "/r"
      (inr (listing ["/r/a.jpg"; "/r/notes.txt"; "/r/2023/b.jpg"])) ∅ = inr st
    ∧ scan_db st
      = fold_left RelPath.upsertRemote ["a.jpg"; "2023/b.jpg"] ∅
    ∧ scan_count st = 2%nat.
Proof.
  intros Rel.
  destruct (proj2 (X14_relpath_remote_scan Rel id {| Extensions := [".jpg"] |}
                     "host" "/r" ∅)
              ["/r/a.jpg"; "/r/notes.txt"; "/r/2023/b.jpg"])
    as (st & Hrun & Hdb & Hcount & _).
  - repeat constructor.
  - exists st. split_and!; [exact Hrun | exact Hdb | exact Hcount].
Defined.

(** X17: a line of 65536 bytes or more ends the remote scan silently, in
    both variants.  When the lines before it fit into the buffer of the
    scanner, the scan of a listing that holds such a line is the scan of the
    lines before it: the long line and every line after it are never
    processed, and the scan still ends with its completion message, not a
    fatal error. *)
Theorem X17_long_line_ends_scan :
  (∀ (cfg : Config) (remote path : string) (pre post : list string)
      (long : string) (db : Composite.DB),
     Forall fitsBuffer pre →
     countByte GoLib.NL long = 0%nat →
     (GoLib.MaxScanTokenSize ≤ N.of_nat (String.length long))%N →
     Composite.runAddRemoteOut cfg remote path
       (inr (listing (pre ++ long :: post))) db
     = Composite.runAddRemoteOut cfg remote path (inr (listing pre)) db
     ∧ ∃ st, Composite.runAddRemoteOut cfg remote path
               (inr (listing (pre ++ long :: post))) db = inr st)
  ∧ (∀ (Rel : string → string → GoLib.error + string) (Base : string → string)
        (cfg : Config) (remote path : string) (pre post : list string)
        (long : string) (db : RelPath.DB),
     Forall fitsBuffer pre →
     countByte GoLib.NL long = 0%nat →
     (GoLib.MaxScanTokenSize ≤ N.of_nat (String.length long))%N →
     RelPath.runAddRemoteOut Rel Base cfg remote path
       (inr (listing (pre ++ long :: post))) db
     = RelPath.runAddRemoteOut Rel Base cfg remote path (inr (listing pre)) db
     ∧ ∃ st, RelPath.runAddRemoteOut Rel Base cfg remote path
               (inr (listing (pre ++ long :: post))) db = inr st).
Proof.
  split.
  - intros cfg remote path pre post long db Hpre Hnl Hlong.
    unfold Composite.runAddRemoteOut.
    rewrite ScanLines_long, ScanLines_listing_fits by done.
    split; [done | by eexists].
  - intros Rel Base cfg remote path pre post long db Hpre Hnl Hlong.
    unfold RelPath.runAddRemoteOut.
    rewrite ScanLines_long, ScanLines_listing_fits by done.
    split; [done | by eexists].
Qed.

Lemma X17_long_line_ends_scan_witness :
  let cfg := {| Extensions := [".jpg"] |} in
  Composite.runAddRemoteOut cfg "host" "/r"
    (inr (listing ([findLine "a.jpg" "10" "/r/a.jpg"]
                   ++ doubled 16 "x" :: [findLine "b.jpg" "20" "/r/b.jpg"]))) ∅
  = Composite.runAddRemoteOut cfg "host" "/r"
      (inr (listing [findLine "a.jpg" "10" "/r/a.jpg"])) ∅.
Proof.
  intros cfg.
  apply (proj1 X17_long_line_ends_scan cfg "host" "/r"
           [findLine "a.jpg" "10" "/r/a.jpg"] [findLine "b.jpg" "20" "/r/b.jpg"]
           (doubled 16 "x") ∅).
  - repeat constructor.
  - by apply countByte_doubled.
  - rewrite length_doubled. vm_compute. discriminate.
Defined.

Section ScannerBound.
Import GoLib.

Lemma withinBuffer_length (lines : list string) :
  (length (withinBuffer lines) ≤ length lines)%nat.
Proof.
  induction lines as [|line lines IH]; [done|].
  cbn [withinBuffer]. case_match; cbn [length]; lia.
Qed.

Lemma removelast_length {A} (l : list A) : (length (removelast l) ≤ length l)%nat.
Proof.
  induction l as [|x l IH]; [done|].
  cbn [removelast]. destruct l; cbn [length] in *; lia.
Qed.

(** The scanner makes at most one token more than the data holds newlines. *)
Lemma ScanLines_length (data : string) :
  (length (ScanLines data) ≤ S (countByte NL data))%nat.
Proof.
  unfold ScanLines. rewrite length_fmap.
  etransitivity; [apply withinBuffer_length|].
  unfold rawLines. rewrite <- Split_length.
  case_match; [apply removelast_length | done].
Qed.

End ScannerBound.

(** X18: whatever bytes the listing holds, the remote scan (composite scheme)
    ends with its completion message, never changes what local scans recorded
    and never removes a row.  The number it reports is at most the number of
    tokens of the scanner, which is at most one more than the number of
    newlines in the listing; the table grows by at most the reported number;
    and every identity added has a name that passes the extension filter and
    a size that is an int64. *)
Theorem X18_remote_scan_of_any_output (cfg : Config) (remote path : string)
    (stdout : string) (db : Composite.DB) :
  ∃ st,
    Composite.runAddRemoteOut cfg remote path (inr stdout) db = inr st
    ∧ (∀ k, Composite.local_of (scan_db st) k = Composite.local_of db k)
    ∧ dom db ⊆ dom (scan_db st)
    ∧ (scan_count st ≤ length (GoLib.ScanLines stdout))%nat
    ∧ (scan_count st ≤ S (countByte GoLib.NL stdout))%nat
    ∧ (size (scan_db st) ≤ size db + scan_count st)%nat
    ∧ (∀ k, k ∈ dom (scan_db st) →
            k ∈ dom db
            ∨ (isExtensionAllowed k.1 (Extensions cfg) = true ∧ int64 k.2)).
Proof.
  unfold Composite.runAddRemoteOut. eexists. split; [reflexivity|].
  cbn [scan_db scan_count].
  pose proof (ScanLines_length stdout) as Hlen.
  match goal with |- context [fold_left _ (GoLib.ScanLines stdout) ?st0] =>
    destruct (remoteLines_invariant (Extensions cfg) (GoLib.ScanLines stdout) st0)
      as (Hl & Hdom & Hcount & Hsize & Hnew) end.
  cbn [scan_db scan_count] in *. split_and!; try done; lia.
Qed.
